(** * grind-helper: the selection engine and the metadata cache worker

    A shallow embedding of [src/default/main.py] (tag lookup, ratio
    aggregation and selection) and of [src/worker/main.py] (cache
    completeness check and population), with the properties of the
    specification stated over it.

    Conventions.
    - A Python [dict] is an association list in insertion order
      ([dict_set] replaces the value of a present key where it stands and
      appends an absent one), because the code iterates over its dicts and
      sorts their items with a stable sort.
    - A Python [set] of strings is a [gset string]; [list(s)] is
      [elements s], an arbitrary but fixed enumeration.
    - Exceptions are values of [result]; code that raises returns [Raise].
    - A Python float is the rational it stands for, in [Q], and a float
      operation is the exact operation followed by a rounding [round],
      which the engine takes as a parameter; the properties that depend on
      it assume no more than [rounding]: it keeps the order and leaves 0,
      1 and 100 as they are. *)

From Stdlib Require Import QArith Ascii.
From stdpp Require Import gmap strings list sorting.

Set Default Proof Using "Type".

(** ** Python values, exceptions *)

(** The exceptions the modelled code can raise. [CacheError] stands for
    whatever the memcache client raises when a read fails. *)
Inductive exn : Type :=
  | IndexError
  | KeyError
  | ZeroDivisionError
  | CacheError
  | UpstreamError.

Inductive result (A : Type) : Type :=
  | Ok (a : A)
  | Raise (e : exn).
Arguments Ok {A} a.
Arguments Raise {A} e.

#[global] Instance result_ret : MRet result := λ A a, Ok a.
#[global] Instance result_bind : MBind result := λ A B k m,
  match m with
  | Ok a => k a
  | Raise e => Raise e
  end.

(** [try: m except Exception: h] *)
Definition try_except {A} (m : result A) (h : exn → result A) : result A :=
  match m with
  | Ok a => Ok a
  | Raise e => h e
  end.

(** What the cache holds: the worker stores tag lists (lists of tag slugs)
    and display texts (titles and names). *)
Inductive value : Type :=
  | VTags (tags : list string)
  | VText (text : string).

(** Python truthiness of a stored value: the empty list and the empty
    string are falsy. *)
Definition truthy (v : value) : bool :=
  match v with
  | VTags [] => false
  | VText "" => false
  | _ => true
  end.

(** [x or d] where [x] is what [memcache.Client().get] returned
    ([None] when the key is absent). *)
Definition or_else (x : option value) (d : value) : value :=
  match x with
  | Some v => if truthy v then v else d
  | None => d
  end.

(** [for t in v]: a list yields its elements, a string its characters. *)
Definition iter_value (v : value) : list string :=
  match v with
  | VTags l => l
  | VText s => (λ c, String c EmptyString) <$> String.list_ascii_of_string s
  end.

(** [x is not None] *)
Definition is_not_None {A} (x : option A) : bool :=
  match x with
  | Some _ => true
  | None => false
  end.

(** ** Cache keys (the f-strings of both programs) *)

Definition tags_key (slug : string) : string := slug +:+ "_tags".
Definition problem_tags_key (slug : string) : string := "problem_" +:+ slug +:+ "_tags".
Definition problem_title_key (slug : string) : string := "problem_" +:+ slug +:+ "_title".
Definition tag_name_key (slug : string) : string := "tag_" +:+ slug +:+ "_name".

(** ** Insertion-ordered dictionaries *)

Section Dict.
Context {V : Type}.

Fixpoint dict_get (k : string) (d : list (string * V)) : option V :=
  match d with
  | [] => None
  | (k', v) :: d' => if decide (k = k') then Some v else dict_get k d'
  end.

(** [d[k] = v] *)
Fixpoint dict_set (k : string) (v : V) (d : list (string * V)) : list (string * V) :=
  match d with
  | [] => [(k, v)]
  | (k', v') :: d' =>
      if decide (k = k') then (k, v) :: d' else (k', v') :: dict_set k v d'
  end.

(** [d.setdefault(k, v)] (for its effect on [d]) *)
Definition dict_setdefault (k : string) (v : V) (d : list (string * V)) : list (string * V) :=
  match dict_get k d with
  | Some _ => d
  | None => dict_set k v d
  end.

(** [d[k]], which raises [KeyError] on an absent key *)
Definition dict_item (k : string) (d : list (string * V)) : result V :=
  match dict_get k d with
  | Some v => Ok v
  | None => Raise KeyError
  end.

Definition dict_keys (d : list (string * V)) : list string := d.*1.

(** [{k: v for k, v in kvs}] *)
Definition dict_of_list (kvs : list (string * V)) : list (string * V) :=
  foldl (λ d kv, dict_set kv.1 kv.2 d) [] kvs.
End Dict.

Section DictAlter.
Context {V : Type}.

(** [f(d[k])] for an [f] that mutates the object stored under [k] where
    it stands; used only on keys that are present. *)
Fixpoint dict_alter (f : V → V) (k : string) (d : list (string * V)) : list (string * V) :=
  match d with
  | [] => []
  | (k', v) :: d' =>
      if decide (k = k') then (k', f v) :: d' else (k', v) :: dict_alter f k d'
  end.
End DictAlter.

(** ** [sorted(items, key=...)]

    Python computes every key first, then sorts stably, comparing keys
    with [<] only.  Insertion from the right end keeps an element in
    front of the later elements with the same key. *)

Fixpoint insert_by_key {A} (x : Q * A) (l : list (Q * A)) : list (Q * A) :=
  match l with
  | [] => [x]
  | y :: l' =>
      if Qle_bool x.1 y.1 then x :: y :: l' else y :: insert_by_key x l'
  end.

Definition key_le {A} : relation (Q * A) := λ x y, (x.1 <= y.1)%Q.

Definition sort_by_key {A} (l : list (Q * A)) : list (Q * A) :=
  foldr insert_by_key [] l.

Definition sorted {A} (key : A → result Q) (l : list A) : result (list A) :=
  keys ← mapM key l;
  Ok (sort_by_key (zip keys l)).*2.

(** ** Regular expressions, as far as [re.match] is used

    [re.match(r, s)] succeeds when [r] matches some prefix of [s]; the
    matcher follows the string with derivatives of [r]. *)

Inductive regex : Type :=
  | Void
  | Eps
  | Class (p : ascii → bool)
  | Alt (r1 r2 : regex)
  | Seq (r1 r2 : regex)
  | Star (r : regex).

Fixpoint nullable (r : regex) : bool :=
  match r with
  | Void => false
  | Eps => true
  | Class _ => false
  | Alt r1 r2 => nullable r1 || nullable r2
  | Seq r1 r2 => nullable r1 && nullable r2
  | Star _ => true
  end.

Fixpoint deriv (c : ascii) (r : regex) : regex :=
  match r with
  | Void => Void
  | Eps => Void
  | Class p => if p c then Eps else Void
  | Alt r1 r2 => Alt (deriv c r1) (deriv c r2)
  | Seq r1 r2 =>
      if nullable r1 then Alt (Seq (deriv c r1) r2) (deriv c r2)
      else Seq (deriv c r1) r2
  | Star r1 => Seq (deriv c r1) (Star r1)
  end.

(** [re.match(r, s) is not None] *)
Fixpoint re_match (r : regex) (s : string) : bool :=
  nullable r ||
  match s with
  | EmptyString => false
  | String c s' => re_match (deriv c r) s'
  end.

(** The words of a regular expression. *)
Inductive matches : regex → list ascii → Prop :=
  | matches_eps : matches Eps []
  | matches_class p c : p c = true → matches (Class p) [c]
  | matches_alt_l r1 r2 u : matches r1 u → matches (Alt r1 r2) u
  | matches_alt_r r1 r2 u : matches r2 u → matches (Alt r1 r2) u
  | matches_seq r1 r2 u v : matches r1 u → matches r2 v → matches (Seq r1 r2) (u ++ v)
  | matches_star_nil r : matches (Star r) []
  | matches_star_cons r u v :
      matches r u → matches (Star r) v → matches (Star r) (u ++ v).

(** [[a-z0-9]] *)
Definition is_lower_alnum (c : ascii) : bool :=
  let n := nat_of_ascii c in
  (Nat.leb 97 n && Nat.leb n 122) || (Nat.leb 48 n && Nat.leb n 57).

(** [[a-z0-9-]] *)
Definition is_slug_char (c : ascii) : bool :=
  is_lower_alnum c || bool_decide (c = "-"%char).

(** ["[a-z0-9][a-z0-9-]*[a-z0-9]"] *)
Definition slug_pattern : regex :=
  Seq (Class is_lower_alnum) (Seq (Star (Class is_slug_char)) (Class is_lower_alnum)).

(** * The selection engine, [src/default/main.py] *)

Module Default.

(** One element of [stat_status_pairs]: [pair["stat"]["question__title_slug"]]
    and [pair["status"]], which is JSON [null] or a string. *)
Record pair : Type := {
  question__title_slug : string;
  status : option string
}.

Record TagInfo : Type := {
  solved : gset string;
  left : gset string
}.

(** The context handed to [render_template("interpret.html", ...)]. *)
Record context : Type := {
  ctx_to_solve : string;
  ctx_to_solve_name : value;
  ctx_tag_progress : list (string * Q);
  ctx_tag_to_name : list (string * value)
}.

Inductive body : Type :=
  | interpret_html (c : context)
  | main_html.

(** The variables of the selection loop. *)
Record selection : Type := {
  to_solve_tasks : gset string;
  to_solve : string;
  tag_progress : list (string * Q);
  rng : nat
}.

(** What reaches [main]: the method, the verdict of [form.validate()] and
    the parsed [stat_status_pairs] of the posted JSON. *)
Record request : Type := {
  method : string;
  form_validate : bool;
  stat_status_pairs : list pair
}.

Section Engine.
(** [memcache.Client().get]: raises, or returns [None] or a value. *)
Variable cache : string → result (option value).
(** The random source: [draws i] is the [i]-th number it gives. *)
Variable draws : nat → nat.
(** Float arithmetic: an operation returns the exact result, rounded to
    the nearest float. *)
Variable round : Q → Q.

(** [random.choice(seq)], with the count of draws made so far *)
Definition random_choice (seq : list string) (i : nat) : result (string * nat) :=
  match seq !! (draws i `mod` length seq) with
  | Some x => Ok (x, S i)
  | None => Raise IndexError
  end.

Definition get_tags (slug : string) : result value :=
  let tags := VTags [] in
  try_except
    (x ← cache (tags_key slug); Ok (or_else x (VTags [])))
    (λ _, Ok tags).

Definition slug_to_solved_status (problems : list pair) : list (string * bool) :=
  dict_of_list
    ((λ p, (question__title_slug p, bool_decide (status p = Some "ac"))) <$> problems).

Definition problem_to_tags (all_problems : list string) : result (list (string * value)) :=
  results ← mapM get_tags all_problems;
  Ok (dict_of_list (zip all_problems results)).

(** The body of [for tag in tags]. *)
Definition add_to_tag (slug : string) (is_solved : bool)
    (tag_info_map : list (string * TagInfo)) (tag : string) : list (string * TagInfo) :=
  let m := dict_setdefault tag {| solved := ∅; left := ∅ |} tag_info_map in
  if is_solved
  then dict_alter (λ t, {| solved := solved t ∪ {[slug]}; left := left t |}) tag m
  else dict_alter (λ t, {| solved := solved t; left := left t ∪ {[slug]} |}) tag m.

(** [for slug, solved in list(slug_to_solved_status.items())] *)
Fixpoint aggregate (ptt : list (string * value)) (items : list (string * bool))
    (tag_info_map : list (string * TagInfo)) : result (list (string * TagInfo)) :=
  match items with
  | [] => Ok tag_info_map
  | (slug, is_solved) :: rest =>
      tags ← dict_item slug ptt;
      aggregate ptt rest (foldl (add_to_tag slug is_solved) tag_info_map (iter_value tags))
  end.

(** [len(solved) / (len(solved) + len(left))] *)
Definition ratio (t : TagInfo) : result Q :=
  let total := size (solved t) + size (left t) in
  if decide (total = 0) then Raise ZeroDivisionError
  else Ok (round (Z.of_nat (size (solved t)) # Pos.of_nat total)).

(** The body of the selection loop, for one [(name, tag_info)]. *)
Definition narrow (st : selection) (item : string * TagInfo) : result selection :=
  let pool := to_solve_tasks st ∩ left item.2 in
  '(pick, i) ← (if decide (pool = ∅) then Ok (to_solve st, rng st)
                else random_choice (elements pool) (rng st));
  r ← ratio item.2;
  let solved_ratio := round (r * 100)%Q in
  Ok {| to_solve_tasks := pool;
        to_solve := pick;
        tag_progress := dict_set item.1 solved_ratio (tag_progress st);
        rng := i |}.

Fixpoint narrow_all (st : selection) (items : list (string * TagInfo)) : result selection :=
  match items with
  | [] => Ok st
  | item :: rest => st' ← narrow st item; narrow_all st' rest
  end.

(** Lines 132 to 150: the tag lists of all problems, then the
    aggregation per tag. *)
Definition build_tag_info_map (s2s : list (string * bool)) : result (list (string * TagInfo)) :=
  ptt ← problem_to_tags (dict_keys s2s);
  aggregate ptt s2s [].

(** [{slug for slug in slug_to_solved_status.keys()}] *)
Definition candidate_pool (s2s : list (string * bool)) : gset string :=
  list_to_set (dict_keys s2s).

(** Lines 125 to 174 of [interpret]: everything up to the pick. *)
Definition select (problems : list pair) (i : nat) : result selection :=
  let s2s := slug_to_solved_status problems in
  tag_info_map ← build_tag_info_map s2s;
  let pool := candidate_pool s2s in
  '(pick, i) ← random_choice (elements pool) i;
  ranked ← sorted (λ x : string * TagInfo, ratio x.2) tag_info_map;
  narrow_all {| to_solve_tasks := pool; to_solve := pick; tag_progress := []; rng := i |}
             ranked.

(** [memcache.Client().get(key) or default], outside any [try] *)
Definition resolve (key : string) (default : string) : result value :=
  x ← cache key; Ok (or_else x (VText default)).

(** Lines 125 to 189 of [interpret], on the pairs that the comprehension
    of lines 125 to 128 has read; the reading of the parsed JSON itself,
    where [pair["status"]] can raise, is [interpret_json] below. *)
Definition interpret (problems : list pair) (i : nat) : result (body * nat) :=
  st ← select problems i;
  to_solve_name ← resolve (problem_title_key (to_solve st)) (to_solve st);
  names ← mapM (λ kv : string * Q, resolve (tag_name_key kv.1) kv.1) (tag_progress st);
  let tag_to_name := dict_of_list (zip (dict_keys (tag_progress st)) names) in
  Ok (interpret_html {| ctx_to_solve := to_solve st;
                        ctx_to_solve_name := to_solve_name;
                        ctx_tag_progress := tag_progress st;
                        ctx_tag_to_name := tag_to_name |}, 200).

Definition main (req : request) (i : nat) : result (body * nat) :=
  if bool_decide (method req = "POST") && form_validate req
  then interpret (stat_status_pairs req) i
  else Ok (main_html, 200).
End Engine.

(** ** Notions used to state the properties *)

(** The tag list the engine works with for [slug]: what [get_tags] gives,
    iterated. *)
Definition cached_tags (cache : string → result (option value)) (slug : string) : list string :=
  match get_tags cache slug with
  | Ok v => iter_value v
  | Raise _ => []
  end.

(** The float that [ratio] computes when it does not raise. *)
Definition ratio_of (round : Q → Q) (t : TagInfo) : Q :=
  round (Z.of_nat (size (solved t)) # Pos.of_nat (size (solved t) + size (left t))).

(** What is used of rounding to the nearest float: it keeps the order,
    and 0, 1 and 100 are floats. *)
Record rounding (round : Q → Q) : Prop := {
  round_mono : ∀ x y, (x <= y)%Q → (round x <= round y)%Q;
  round_0 : (round 0 == 0)%Q;
  round_1 : (round 1 == 1)%Q;
  round_100 : (round 100 == 100)%Q
}.

(** The triples (slug, solved, tag) that the aggregation loops go through. *)
Definition contributions (cache : string → result (option value))
    (items : list (string * bool)) : list (string * bool * string) :=
  items ≫= λ item, (λ tag, (item.1, item.2, tag)) <$> cached_tags cache item.1.

(** [m] holds exactly the contributions [C]: a tag is a key when some
    triple names it, and its two sets hold the slugs of its triples. *)
Definition tracks (C : list (string * bool * string)) (m : list (string * TagInfo)) : Prop :=
  NoDup (dict_keys m) ∧
  ∀ tag, match dict_get tag m with
         | Some info =>
             (∃ x b, (x, b, tag) ∈ C) ∧
             ∀ x, (x ∈ solved info ↔ (x, true, tag) ∈ C) ∧
                  (x ∈ left info ↔ (x, false, tag) ∈ C)
         | None => ∀ x b, (x, b, tag) ∉ C
         end.

(** The scenario of the specification: [a] unsolved with tag [dp], [b]
    solved with tags [dp] and [greedy]. *)
Definition scenario_cache (key : string) : result (option value) :=
  if decide (key = "a_tags") then Ok (Some (VTags ["dp"]))
  else if decide (key = "b_tags") then Ok (Some (VTags ["dp"; "greedy"]))
  else Ok None.

Definition scenario_input : list pair :=
  [ {| question__title_slug := "a"; status := None |};
    {| question__title_slug := "b"; status := Some "ac" |} ].

Definition scenario_tag_info_map : list (string * TagInfo) :=
  [ ("dp", {| solved := {["b"]}; left := {["a"]} |});
    ("greedy", {| solved := {["b"]}; left := ∅ |}) ].

(** The scenario with a cache that fails on the tags of [b]. *)
Definition flaky_cache (key : string) : result (option value) :=
  if decide (key = "b_tags") then Raise CacheError else scenario_cache key.

(** A history that lists [a] twice, solved first and unsolved last. *)
Definition twice_before : list pair :=
  [ {| question__title_slug := "a"; status := Some "ac" |} ].

Definition twice_last : pair :=
  {| question__title_slug := "a"; status := None |}.

(** Three tags whose left sets are [{a, c}], [{b}] and [{a}], ranked in
    that order by the two solved problems [s1] and [s2]. *)
Definition narrowing_cache (key : string) : result (option value) :=
  if decide (key = "a_tags") then Ok (Some (VTags ["t1"; "t3"]))
  else if decide (key = "c_tags") then Ok (Some (VTags ["t1"]))
  else if decide (key = "b_tags") then Ok (Some (VTags ["t2"]))
  else if decide (key = "s1_tags") then Ok (Some (VTags ["t2"; "t3"]))
  else if decide (key = "s2_tags") then Ok (Some (VTags ["t3"]))
  else Ok None.

Definition narrowing_input : list pair :=
  [ {| question__title_slug := "a"; status := None |};
    {| question__title_slug := "c"; status := None |};
    {| question__title_slug := "b"; status := None |};
    {| question__title_slug := "s1"; status := Some "ac" |};
    {| question__title_slug := "s2"; status := Some "ac" |} ].

(** The loop variables after the turn of [t1], and the item of [t2]. *)
Definition after_t1 : selection :=
  {| to_solve_tasks := {["a"; "c"]}; to_solve := "c";
     tag_progress := [("t1", 0 # 2)]; rng := 2 |}.

Definition t2_item : string * TagInfo :=
  ("t2", {| solved := {["s1"]}; left := {["b"]} |}).

(** ** The form validator and the reading of the posted JSON *)

(** What [json.loads] returns. *)
#[local] Unset Elimination Schemes.
Inductive json : Type :=
  | JNull
  | JBool (b : bool)
  | JNumber (n : Z)
  | JString (s : string)
  | JArray (items : list json)
  | JObject (fields : list (string * json)).
#[local] Set Elimination Schemes.

(** How a step of the validator fails: with the [wtforms.ValidationError]
    it raises itself, or with the [TypeError] or [KeyError] of an
    operation on a value of the wrong kind. *)
Inductive failure : Type :=
  | ValidationError (message : string)
  | TypeError
  | LookupError.

Inductive checked (A : Type) : Type :=
  | Fine (a : A)
  | Fails (f : failure).
Arguments Fine {A} a.
Arguments Fails {A} f.

#[global] Instance checked_ret : MRet checked := λ A a, Fine a.
#[global] Instance checked_bind : MBind checked := λ A B k m,
  match m with
  | Fine a => k a
  | Fails f => Fails f
  end.

Definition is_string (key : string) (v : json) : bool :=
  match v with
  | JString s => bool_decide (s = key)
  | _ => false
  end.

(** [key in v] for a string [key]: a key of a dict, an element of a list,
    a substring of a string; other values are not iterable. *)
Definition py_in (key : string) (v : json) : checked bool :=
  match v with
  | JObject fields => Fine (is_not_None (dict_get key fields))
  | JArray items => Fine (existsb (is_string key) items)
  | JString s => Fine (is_not_None (String.index 0 key s))
  | _ => Fails TypeError
  end.

(** [v[key]] for a string [key]: only a dict can be indexed by it. *)
Definition py_getitem (key : string) (v : json) : checked json :=
  match v with
  | JObject fields =>
      match dict_get key fields with
      | Some x => Fine x
      | None => Fails LookupError
      end
  | _ => Fails TypeError
  end.

(** The body of [for stat in stat_status_pairs]. *)
Definition validate_stat (stat : json) : checked () :=
  present ← py_in "stat" stat;
  if negb present then Fails (ValidationError "Provided JSON is not correct")
  else
    question_data ← py_getitem "stat" stat;
    present ← py_in "question__title_slug" question_data;
    if negb present then Fails (ValidationError "Provided JSON is not correct")
    else
      slug ← py_getitem "question__title_slug" question_data;
      match slug with
      | JString s =>
          if negb (re_match slug_pattern s)
          then Fails (ValidationError "Provided JSON is not correct")
          else Fine ()
      | _ => Fails (ValidationError "Provided JSON is not correct")
      end.

Fixpoint validate_stats (stat_status_pairs : list json) : checked () :=
  match stat_status_pairs with
  | [] => Fine ()
  | stat :: rest => _ ← validate_stat stat; validate_stats rest
  end.

(** [validate_problems], from the parsed [data] on. *)
Definition validate_problems (data : json) : checked () :=
  present ← py_in "stat_status_pairs" data;
  if negb present then Fails (ValidationError "No stat_status_pairs in request")
  else
    stat_status_pairs ← py_getitem "stat_status_pairs" data;
    match stat_status_pairs with
    | JArray stats => validate_stats stats
    | _ => Fails (ValidationError "stat_status_pairs must be a list")
    end.

(** The key and the value that the comprehension of [interpret] computes
    for one [pair] (lines 126 and 127): the key first, then the value; a
    list or a dict cannot be a key. *)
Definition comprehension_item (pair : json) : checked (json * bool) :=
  stat ← py_getitem "stat" pair;
  slug ← py_getitem "question__title_slug" stat;
  status ← py_getitem "status" pair;
  match slug with
  | JArray _ | JObject _ => Fails TypeError
  | _ => Fine (slug, is_string "ac" status)
  end.

(** The pair that the rest of [interpret] works on, for an item of the
    comprehension.  The engine is modelled for slugs that are strings,
    which is all the validator lets through: [None] stands for a key of
    another kind. *)
Definition pair_of_item (item : json * bool) : option pair :=
  match item.1 with
  | JString s => Some {| question__title_slug := s;
                         status := if item.2 then Some "ac" else None |}
  | _ => None
  end.

(** [interpret] from the parsed JSON on.  The comprehension reads every
    element of [problems["stat_status_pairs"]] before anything else and
    stops at the first element it cannot read, with the [KeyError] or
    the [TypeError] of the subscript; the rest of the function runs on
    the pairs it read.  Iterating over a dict or a string gives strings,
    which cannot be indexed by ["stat"]; [null], a boolean or a number
    cannot be iterated over. *)
Definition interpret_json (cache : string → result (option value)) (draws : nat → nat)
    (round : Q → Q) (problems : json) (i : nat) : checked (option (result (body * nat))) :=
  stat_status_pairs ← py_getitem "stat_status_pairs" problems;
  match stat_status_pairs with
  | JArray pairs =>
      items ← mapM comprehension_item pairs;
      Fine (typed ← mapM pair_of_item items; Some (interpret cache draws round typed i))
  | JObject [] | JString "" => Fine (Some (interpret cache draws round [] i))
  | _ => Fails TypeError
  end.

(** The shape of an element that the validator lets through. *)
Definition well_formed_stat (stat : json) : Prop :=
  ∃ fields question s,
    stat = JObject fields ∧
    dict_get "stat" fields = Some (JObject question) ∧
    dict_get "question__title_slug" question = Some (JString s) ∧
    re_match slug_pattern s = true.

(** A posted history of two problems, the second without a status. *)
Definition two_pairs : json :=
  JObject
    [ ("user_name", JString "omgitspavel");
      ("stat_status_pairs",
       JArray
         [ JObject [ ("stat", JObject [ ("question__title_slug", JString "two-sum") ]);
                     ("status", JString "ac") ];
           JObject [ ("stat", JObject [ ("question__title_slug", JString "3sum") ]) ] ]) ].

(** A posted history of two problems, each with a status. *)
Definition full_pairs : json :=
  JObject
    [ ("stat_status_pairs",
       JArray
         [ JObject [ ("stat", JObject [ ("question__title_slug", JString "two-sum") ]);
                     ("status", JString "ac") ];
           JObject [ ("stat", JObject [ ("question__title_slug", JString "3sum") ]);
                     ("status", JNull) ] ]) ].

End Default.

(** * The population worker, [src/worker/main.py] *)

Module Worker.

(** One element of [topicTags] in the answer of the catalog provider. *)
Record tag : Type := {
  name : string;
  slug : string
}.

(** [leetcode.GraphqlQuestionDetail], as far as the worker reads it. *)
Record detail : Type := {
  title : string;
  topic_tags : list tag
}.

(** A stored entry: the value and the [time=] it was written with. *)
Record entry : Type := {
  entry_value : value;
  entry_time : Z
}.

(** What the worker does to the outside, in order. *)
Inductive event : Type :=
  | CacheSet (key : string) (v : value) (time : Z)
  | UpstreamQuery (slug : string).

(** The world of the worker: the memcache store, the record of what was
    done, and the number of random draws made so far. *)
Record world : Type := {
  store : gmap string entry;
  log : list event;
  rng : nat
}.

(** The task request: the [X-AppEngine-QueueName] header and the [slug]
    field of the form, each absent or a string. *)
Record request : Type := {
  queue_name : option string;
  form_slug : option string
}.

(** [memcache.Client().get(key)] *)
Definition cache_get (key : string) (w : world) : option value :=
  entry_value <$> store w !! key.

(** [memcache.Client().set(key, v, time=time)].  memcache takes a [time]
    of at most 30 days as a number of seconds from now, and a larger one
    as an absolute Unix time.  The larger times that this program passes
    are at most 31 days, dates of January 1970: such an entry is expired
    when it is written, it replaces what the key held, and the key reads
    as absent. *)
Definition cache_set (key : string) (v : value) (time : Z) (w : world) : world :=
  {| store := if decide (time ≤ 2592000)%Z
              then <[key := {| entry_value := v; entry_time := time |}]> (store w)
              else delete key (store w);
     log := log w ++ [CacheSet key v time];
     rng := rng w |}.

Definition check_cache_tag (slug : string) (w : world) : bool :=
  is_not_None (cache_get (tag_name_key slug) w).

(** [all(check_cache_tag(slug) for slug in x)]; the [and] before it lets
    it run only when [x] is not [None]. *)
Definition all_tags_cached (x : option value) (w : world) : bool :=
  forallb (λ slug, check_cache_tag slug w) (from_option iter_value [] x).

(** The third conjunct is [all(...) is not None]: [is not] binds tighter
    than [and], so it tests the boolean that [all] returns. *)
Definition check_cache_problem (slug : string) (w : world) : bool :=
  is_not_None (cache_get (tags_key slug) w)
  && is_not_None (cache_get (problem_tags_key slug) w)
  && is_not_None (Some (all_tags_cached (cache_get (problem_tags_key slug) w) w))
  && is_not_None (cache_get (problem_title_key slug) w).

(** [request.headers.get(h, False)] as a condition *)
Definition header_set (h : option string) : bool :=
  match h with
  | Some s => bool_decide (s ≠ "")
  | None => false
  end.

Section Worker.
(** [get_problem_detail]: the answer of the catalog provider, or the
    exception of a failed query. *)
Variable upstream : string → result detail.
(** The random source: [draws i] is the [i]-th number it gives. *)
Variable draws : nat → nat.

(** [random.randint(a, b)], given the [i]-th draw *)
Definition randint (a b : Z) (i : nat) : Z :=
  (a + Z.of_nat (draws i) `mod` (b - a + 1))%Z.

Definition get_problem_detail (slug : string) (w : world) : result detail * world :=
  (upstream slug,
   {| store := store w; log := log w ++ [UpstreamQuery slug]; rng := rng w |}).

Definition invalidate_cache (req : request) (w : world) : result (string * nat) * world :=
  if negb (header_set (queue_name req)) then (Ok ("FAIL", 403), w)
  else
    let cache_for := (86400 * 30 + randint (-86400) 86400 (rng w))%Z in
    let w := {| store := store w; log := log w; rng := S (rng w) |} in
    match form_slug req with
    | None => (Raise KeyError, w)
    | Some slug =>
        if check_cache_problem slug w then (Ok ("OK", 200), w)
        else
          match get_problem_detail slug w with
          | (Raise e, w) => (Raise e, w)
          | (Ok detail, w) =>
              let tags := Worker.slug <$> topic_tags detail in
              let w := foldl (λ w tag,
                                cache_set (tag_name_key (Worker.slug tag)) (VText (name tag))
                                          cache_for w)
                             w (topic_tags detail) in
              let w := cache_set (tags_key slug) (VTags tags) cache_for w in
              let w := cache_set (problem_tags_key slug) (VTags tags) cache_for w in
              let w := cache_set (problem_title_key slug) (VText (title detail)) cache_for w in
              (Ok ("OK", 200), w)
          end
    end.
End Worker.

Definition empty_world : world := {| store := ∅; log := []; rng := 0 |}.

(** A catalog with one problem, [two-sum], tagged [array] and [hash-table]. *)
Definition one_problem (s : string) : result detail :=
  if decide (s = "two-sum")
  then Ok {| title := "Two Sum";
             topic_tags := [ {| name := "Array"; slug := "array" |};
                             {| name := "Hash Table"; slug := "hash-table" |} ] |}
  else Raise UpstreamError.

Definition task (s : string) : request :=
  {| queue_name := Some "default"; form_slug := Some s |}.

(** A cache that holds the two tag lists and the title of [two-sum] but
    no name for its tag [array]. *)
Definition stale_world : world :=
  {| store :=
       list_to_map
         [ ("two-sum_tags", {| entry_value := VTags ["array"]; entry_time := 2592000 |});
           ("problem_two-sum_tags",
            {| entry_value := VTags ["array"]; entry_time := 2592000 |});
           ("problem_two-sum_title",
            {| entry_value := VText "Two Sum"; entry_time := 2592000 |}) ];
     log := [];
     rng := 0 |}.

(** The writes of one population, for the time-to-live [cache_for]. *)
Definition writes (slug : string) (d : detail) (cache_for : Z) : list event :=
  ((λ t, CacheSet (tag_name_key (Worker.slug t)) (VText (name t)) cache_for) <$> topic_tags d)
  ++ [ CacheSet (tags_key slug) (VTags (Worker.slug <$> topic_tags d)) cache_for;
       CacheSet (problem_tags_key slug) (VTags (Worker.slug <$> topic_tags d)) cache_for;
       CacheSet (problem_title_key slug) (VText (title d)) cache_for ].

(** The time-to-live of a write. *)
Definition event_time (ev : event) : option Z :=
  match ev with
  | CacheSet _ _ time => Some time
  | UpstreamQuery _ => None
  end.

(** ** The scheduler, [invalidate_cache_schedule] *)

(** ["<br/>".join(response)] *)
Fixpoint join (sep : string) (response : list string) : string :=
  match response with
  | [] => ""
  | [line] => line
  | line :: rest => line +:+ sep +:+ join sep rest
  end.

Section Scheduler.
(** [get_leetcode_client()]: the client is there, or making it raises. *)
Variable leetcode_client : result ().
(** [api_problems_topic_get(topic)]: the slugs of the pairs listed under
    the topic, or the exception of a failed query. *)
Variable catalog : string → result (list string).
(** [taskqueue.add(...)] for a slug, given the number of tasks added
    before it: the name and the ETA of the task, or an exception. *)
Variable taskqueue_add : nat → string → result (string * string).

(** The inner loop; [queue] lists the slugs of the tasks added so far,
    which stay added when a later step raises. *)
Fixpoint schedule_slugs (w : world) (slugs : list string) (response : list string)
    (queue : list string) : result (list string) * list string :=
  match slugs with
  | [] => (Ok response, queue)
  | slug :: rest =>
      if check_cache_problem slug w then schedule_slugs w rest response queue
      else
        match taskqueue_add (length queue) slug with
        | Raise e => (Raise e, queue)
        | Ok task =>
            schedule_slugs w rest
              (response ++ [ "Task " +:+ task.1 +:+ " for slug " +:+ slug
                             +:+ " enqueued, ETA " +:+ task.2 +:+ "." ])
              (queue ++ [slug])
        end
  end.

(** The outer loop, over the topics. *)
Fixpoint schedule_topics (w : world) (topics : list string) (response : list string)
    (queue : list string) : result (list string) * list string :=
  match topics with
  | [] => (Ok response, queue)
  | topic :: rest =>
      match catalog topic with
      | Raise e => (Raise e, queue)
      | Ok slugs =>
          match schedule_slugs w slugs response queue with
          | (Raise e, queue) => (Raise e, queue)
          | (Ok response, queue) => schedule_topics w rest response queue
          end
      end
  end.

Definition topics : list string := ["algorithms"; "shell"; "databases"; "concurrency"].

(** The answer and the slugs for which a task was added; [cron] is the
    [X-AppEngine-Cron] header. *)
Definition invalidate_cache_schedule (cron : option string) (w : world)
    : result (string * nat) * list string :=
  if negb (header_set cron) then (Ok ("FAIL", 403), [])
  else
    match leetcode_client with
    | Raise e => (Raise e, [])
    | Ok _ =>
        match schedule_topics w topics [] [] with
        | (Raise e, queue) => (Raise e, queue)
        | (Ok response, queue) => (Ok (join "<br/>" response, 200), queue)
        end
    end.
End Scheduler.

(** The memcache of the worker as the engine reads it. *)
Definition cache_of (w : world) (key : string) : result (option value) :=
  Ok (cache_get key w).

(** A cache that holds the tag list of another problem only. *)
Definition other_world : world :=
  {| store :=
       {[ "3sum_tags" := {| entry_value := VTags ["array"]; entry_time := 2500000 |} ]};
     log := [];
     rng := 0 |}.

(** The world that the writes of one population leave. *)
Definition populated (s : string) (d : detail) (cache_for : Z) (w : world) : world :=
  cache_set (problem_title_key s) (VText (title d)) cache_for
    (cache_set (problem_tags_key s) (VTags (Worker.slug <$> topic_tags d)) cache_for
       (cache_set (tags_key s) (VTags (Worker.slug <$> topic_tags d)) cache_for
          (foldl (λ w t, cache_set (tag_name_key (Worker.slug t)) (VText (name t)) cache_for w)
                 w (topic_tags d)))).

(** The keys that one population writes. *)
Definition written_keys (s : string) (d : detail) : list string :=
  ((λ t, tag_name_key (Worker.slug t)) <$> topic_tags d)
  ++ [tags_key s; problem_tags_key s; problem_title_key s].

(** A catalog that lists two problems under [algorithms] and none under
    the other topics, and a queue that names its tasks by the slug. *)
Definition small_catalog (topic : string) : result (list string) :=
  if decide (topic = "algorithms") then Ok ["two-sum"; "3sum"] else Ok [].

Definition plain_queue (n : nat) (s : string) : result (string * string) :=
  Ok ("task-" +:+ s, "now").

(** A catalog whose second topic cannot be listed. *)
Definition broken_catalog (topic : string) : result (list string) :=
  if decide (topic = "algorithms") then Ok ["two-sum"; "3sum"] else Raise UpstreamError.

End Worker.

(** * Facts about the dictionaries *)

Section DictFacts.
Context {V : Type}.
Implicit Types (d : list (string * V)) (k : string) (v : V).

Lemma dict_get_set_eq k v d : dict_get k (dict_set k v d) = Some v.
Proof.
  induction d as [|[k' v'] d IH]; csimpl.
  - by rewrite decide_True.
  - destruct (decide (k = k')) as [->|Hne]; csimpl.
    + by rewrite decide_True.
    + by rewrite decide_False.
Qed.

Lemma dict_get_set_ne k k' v d :
  k ≠ k' → dict_get k' (dict_set k v d) = dict_get k' d.
Proof.
  intros Hne. induction d as [|[k0 v0] d IH]; csimpl.
  - by rewrite decide_False.
  - destruct (decide (k = k0)) as [->|Hne0]; csimpl.
    + by rewrite !decide_False.
    + destruct (decide (k' = k0)); done.
Qed.

Lemma dict_get_None k d : dict_get k d = None ↔ k ∉ dict_keys d.
Proof.
  unfold dict_keys. induction d as [|[k' v'] d IH]; csimpl.
  - split; [intros _; apply not_elem_of_nil | done].
  - rewrite not_elem_of_cons. destruct (decide (k = k')); naive_solver.
Qed.

Lemma dict_get_is_Some k d : is_Some (dict_get k d) ↔ k ∈ dict_keys d.
Proof.
  rewrite <-not_eq_None_Some, dict_get_None.
  split; [apply dec_stable | auto].
Qed.

Lemma dict_get_app k d1 d2 :
  dict_get k (d1 ++ d2)
  = match dict_get k d1 with
    | Some v => Some v
    | None => dict_get k d2
    end.
Proof.
  induction d1 as [|[k' v'] d1 IH]; csimpl; [done|]. by case_decide.
Qed.

Lemma dict_get_elem_of k v d : dict_get k d = Some v → (k, v) ∈ d.
Proof.
  induction d as [|[k' v'] d IH]; csimpl; [done|].
  destruct (decide (k = k')) as [->|]; intros H.
  - injection H as ->. left.
  - right. auto.
Qed.

Lemma elem_of_dict_get k v d :
  NoDup (dict_keys d) → (k, v) ∈ d → dict_get k d = Some v.
Proof.
  unfold dict_keys. induction d as [|[k' v'] d IH]; csimpl.
  - intros _ H. by apply elem_of_nil in H.
  - rewrite NoDup_cons. intros [Hk Hd] H.
    apply elem_of_cons in H as [[= -> ->]|H].
    + by rewrite decide_True.
    + rewrite decide_False; [auto|].
      intros ->. apply Hk. apply list_elem_of_fmap. by exists (k', v).
Qed.

Lemma dict_keys_set k v d :
  dict_keys (dict_set k v d)
  = match dict_get k d with
    | Some _ => dict_keys d
    | None => dict_keys d ++ [k]
    end.
Proof.
  unfold dict_keys. induction d as [|[k' v'] d IH]; csimpl; [done|].
  destruct (decide (k = k')) as [->|]; csimpl; [done|].
  rewrite IH. by destruct (dict_get k d).
Qed.

Lemma NoDup_dict_set k v d :
  NoDup (dict_keys d) → NoDup (dict_keys (dict_set k v d)).
Proof.
  intros Hd. rewrite dict_keys_set.
  destruct (dict_get k d) eqn:E; [done|].
  apply NoDup_app. split_and!; [done| |apply NoDup_singleton].
  intros x Hx ->%list_elem_of_singleton. by apply dict_get_None in E.
Qed.

Lemma elem_of_dict_keys_set k k' v d :
  k' ∈ dict_keys (dict_set k v d) ↔ k' = k ∨ k' ∈ dict_keys d.
Proof.
  rewrite dict_keys_set. destruct (dict_get k d) eqn:E.
  - assert (k ∈ dict_keys d) by (apply dict_get_is_Some; eauto). naive_solver.
  - rewrite elem_of_app, list_elem_of_singleton. tauto.
Qed.

Lemma dict_keys_alter (f : V → V) k d : dict_keys (dict_alter f k d) = dict_keys d.
Proof.
  unfold dict_keys. induction d as [|[k' v'] d IH]; csimpl; [done|].
  destruct (decide (k = k')); csimpl; by rewrite ?IH.
Qed.

Lemma dict_get_alter (f : V → V) k k' d :
  dict_get k' (dict_alter f k d)
  = if decide (k = k') then f <$> dict_get k d else dict_get k' d.
Proof.
  induction d as [|[k0 v0] d IH]; csimpl; [by case_decide|].
  repeat (case_decide; csimpl); simplify_eq; try done.
  all: rewrite IH; by repeat case_decide.
Qed.

Lemma dict_get_setdefault k k' v d :
  dict_get k' (dict_setdefault k v d)
  = match dict_get k' d with
    | Some x => Some x
    | None => if decide (k = k') then Some v else None
    end.
Proof.
  unfold dict_setdefault. destruct (dict_get k d) eqn:E.
  - destruct (dict_get k' d) eqn:E'; [done|].
    rewrite decide_False; [done|]. congruence.
  - destruct (decide (k = k')) as [->|Hne].
    + by rewrite dict_get_set_eq, E.
    + rewrite dict_get_set_ne by done. by destruct (dict_get k' d).
Qed.

Lemma NoDup_dict_setdefault k v d :
  NoDup (dict_keys d) → NoDup (dict_keys (dict_setdefault k v d)).
Proof.
  unfold dict_setdefault. destruct (dict_get k d); [done|apply NoDup_dict_set].
Qed.

(** The value a dict comprehension keeps for a key is the one of the
    last pair with that key. *)
Lemma dict_get_foldl_set k d (kvs : list (string * V)) :
  dict_get k (foldl (λ d kv, dict_set kv.1 kv.2 d) d kvs)
  = match dict_get k (reverse kvs) with
    | Some v => Some v
    | None => dict_get k d
    end.
Proof.
  revert d. induction kvs as [|[k0 v0] kvs IH]; intros d; csimpl; [done|].
  rewrite IH, reverse_cons. clear IH.
  induction (reverse kvs) as [|[k1 v1] l IH]; csimpl.
  - destruct (decide (k = k0)) as [->|Hne].
    + by rewrite dict_get_set_eq.
    + by rewrite dict_get_set_ne.
  - destruct (decide (k = k1)); done.
Qed.

Lemma dict_get_of_list k (kvs : list (string * V)) :
  dict_get k (dict_of_list kvs) = dict_get k (reverse kvs).
Proof.
  unfold dict_of_list. rewrite dict_get_foldl_set. by destruct (dict_get _ _).
Qed.

Lemma NoDup_dict_of_list (kvs : list (string * V)) :
  NoDup (dict_keys (dict_of_list kvs)).
Proof.
  unfold dict_of_list.
  assert (NoDup (dict_keys ([] : list (string * V)))) as H by apply NoDup_nil_2.
  revert H. generalize ([] : list (string * V)).
  induction kvs as [|kv kvs IH]; intros d Hd; csimpl; [done|].
  apply IH. by apply NoDup_dict_set.
Qed.

Lemma elem_of_dict_keys_of_list k (kvs : list (string * V)) :
  k ∈ dict_keys (dict_of_list kvs) ↔ k ∈ kvs.*1.
Proof.
  rewrite <-dict_get_is_Some, dict_get_of_list, dict_get_is_Some.
  unfold dict_keys. by rewrite fmap_reverse, elem_of_reverse.
Qed.

Lemma dict_of_list_nil_inv (kvs : list (string * V)) :
  dict_of_list kvs = [] → kvs = [].
Proof.
  destruct kvs as [|[k v] kvs]; [done|]. intros H.
  assert (k ∈ dict_keys (dict_of_list ((k, v) :: kvs))) as Hk.
  { apply elem_of_dict_keys_of_list. csimpl. left. }
  rewrite H in Hk. by apply elem_of_nil in Hk.
Qed.

(** Pairing each key with [f] of it. *)
Lemma dict_get_graph (f : string → V) k (ks : list string) :
  k ∈ ks → dict_get k ((λ x, (x, f x)) <$> ks) = Some (f k).
Proof.
  induction ks as [|k0 ks IH]; csimpl.
  - intros H. by apply elem_of_nil in H.
  - intros H. destruct (decide (k = k0)) as [->|Hne]; [done|].
    apply elem_of_cons in H as [?|?]; [done|auto].
Qed.
End DictFacts.

Lemma zip_graph {A B} (f : A → B) (l : list A) : zip l (f <$> l) = (λ x, (x, f x)) <$> l.
Proof. induction l; csimpl; by f_equal. Qed.

Lemma zip_graph_l {A B} (f : A → B) (l : list A) : zip (f <$> l) l = (λ x, (f x, x)) <$> l.
Proof. induction l; simpl; by f_equal. Qed.

Lemma mapM_result_cons {A B} (g : A → result B) (x : A) (l : list A) :
  mapM g (x :: l) = y ← g x; ys ← mapM g l; Ok (y :: ys).
Proof. done. Qed.

Lemma mapM_Ok {A B} (f : A → B) (g : A → result B) (l : list A) :
  (∀ x, x ∈ l → g x = Ok (f x)) → mapM g l = Ok (f <$> l).
Proof.
  induction l as [|x l IH]; intros H; [done|].
  rewrite mapM_result_cons, (H x) by left.
  rewrite IH by (intros y Hy; apply H; by right). done.
Qed.

(** * Facts about [sorted] *)

Section SortFacts.
Context {A : Type}.
Implicit Types (x : Q * A) (l : list (Q * A)).

Lemma insert_by_key_perm x l : insert_by_key x l ≡ₚ x :: l.
Proof.
  induction l as [|y l IH]; simpl; [done|].
  destruct (Qle_bool x.1 y.1); [done|].
  rewrite IH. apply Permutation_swap.
Qed.

Lemma sort_by_key_perm l : sort_by_key l ≡ₚ l.
Proof.
  induction l as [|x l IH]; simpl; [done|].
  by rewrite insert_by_key_perm, IH.
Qed.

Lemma insert_by_key_sorted x l :
  StronglySorted key_le l → StronglySorted key_le (insert_by_key x l).
Proof.
  induction 1 as [|y l Hl IH Hy]; simpl.
  - repeat constructor.
  - destruct (Qle_bool x.1 y.1) eqn:E.
    + apply Qle_bool_iff in E. constructor; [by constructor|].
      constructor; [done|].
      eapply Forall_impl; [exact Hy|]. intros z Hz. unfold key_le in *.
      by eapply Qle_trans.
    + constructor; [done|]. rewrite insert_by_key_perm.
      constructor; [|done]. unfold key_le.
      apply Qlt_le_weak, Qnot_le_lt. intros H.
      apply Qle_bool_iff in H. congruence.
Qed.

Lemma sort_by_key_sorted l : StronglySorted key_le (sort_by_key l).
Proof.
  induction l as [|x l IH]; simpl; [constructor|].
  by apply insert_by_key_sorted.
Qed.

(** When no key raises, [sorted] returns a permutation of its input in
    non-decreasing order of the keys. *)
Lemma sorted_spec (kf : A → Q) (key : A → result Q) (items : list A) :
  (∀ a, a ∈ items → key a = Ok (kf a)) →
  ∃ ranked, sorted key items = Ok ranked ∧ ranked ≡ₚ items ∧
            StronglySorted (λ a b, (kf a <= kf b)%Q) ranked.
Proof.
  intros Hkey. unfold sorted. rewrite (mapM_Ok kf) by done. simpl.
  eexists. split; [done|]. rewrite zip_graph_l.
  set (dec := (λ a, (kf a, a)) <$> items).
  assert (Forall (λ p, p.1 = kf p.2) (sort_by_key dec)) as Hdec.
  { rewrite sort_by_key_perm. subst dec. apply Forall_fmap.
    by apply Forall_forall. }
  split.
  - rewrite sort_by_key_perm. subst dec.
    rewrite <-list_fmap_compose. by rewrite list_fmap_id.
  - pose proof (sort_by_key_sorted dec) as Hs.
    induction Hs as [|p l Hl IH Hp]; csimpl; [constructor|].
    apply Forall_cons in Hdec as [Hp1 Hdec].
    constructor; [by apply IH|].
    apply Forall_fmap, Forall_forall. intros q Hq.
    rewrite Forall_forall in Hp, Hdec. specialize (Hp q Hq).
    unfold key_le in Hp. simpl. by rewrite <-Hp1, <-(Hdec q Hq).
Qed.
End SortFacts.

(** * Facts about the selection engine *)

Module DefaultFacts.
Import Default.

Section Aggregation.
Lemma tracks_nil : tracks [] [].
Proof.
  split; [apply NoDup_nil_2|]. intros tag. simpl. intros x b. apply not_elem_of_nil.
Qed.

Lemma tracks_add_to_tag C m x b tag :
  tracks C m → tracks (C ++ [(x, b, tag)]) (add_to_tag x b m tag).
Proof.
  intros [Hnd Hm]. split.
  - unfold add_to_tag. destruct b; rewrite dict_keys_alter;
      by apply NoDup_dict_setdefault.
  - intros t. specialize (Hm t).
    assert (dict_get t (add_to_tag x b m tag)
            = if decide (tag = t)
              then Some (let info := default {| solved := ∅; left := ∅ |} (dict_get t m) in
                         if b then {| solved := solved info ∪ {[x]}; left := left info |}
                         else {| solved := solved info; left := left info ∪ {[x]} |})
              else dict_get t m) as ->.
    { unfold add_to_tag. destruct b; rewrite dict_get_alter;
        (destruct (decide (tag = t)) as [->|Hne];
         [rewrite dict_get_setdefault, decide_True by done
         |rewrite dict_get_setdefault, decide_False by done];
         by destruct (dict_get t m)). }
    destruct (decide (tag = t)) as [->|Hne].
    + split; [exists x, b; set_solver|].
      intros y. destruct (dict_get t m) as [info|]; simpl.
      * destruct Hm as [_ Hm]. specialize (Hm y) as [Hs Hl].
        destruct b; simpl; set_solver.
      * destruct b; simpl; split; set_solver.
    + destruct (dict_get t m) as [info|].
      * destruct Hm as [(y & c & Hy) Hm]. split; [exists y, c; set_solver|].
        intros z. specialize (Hm z) as [Hs Hl]. set_solver.
      * intros y c. specialize (Hm y c). set_solver.
Qed.

Lemma tracks_foldl_add_to_tag C m x b (tags : list string) :
  tracks C m →
  tracks (C ++ ((λ tag, (x, b, tag)) <$> tags)) (foldl (add_to_tag x b) m tags).
Proof.
  revert C m. induction tags as [|tag tags IH]; intros C m H; csimpl.
  - by rewrite app_nil_r.
  - rewrite cons_middle, app_assoc. by apply IH, tracks_add_to_tag.
Qed.

Lemma candidate_pool_nonempty (s2s : list (string * bool)) :
  s2s ≠ [] → candidate_pool s2s ≠ ∅.
Proof.
  destruct s2s as [|[x b] s2s]; [done|]. intros _.
  unfold candidate_pool. csimpl. set_solver.
Qed.

Lemma tracks_entry C m tag info :
  tracks C m → (tag, info) ∈ m →
  (∃ x b, (x, b, tag) ∈ C) ∧
  ∀ x, (x ∈ solved info ↔ (x, true, tag) ∈ C) ∧ (x ∈ left info ↔ (x, false, tag) ∈ C).
Proof.
  intros [Hnd Hm] Hin. specialize (Hm tag).
  by rewrite (elem_of_dict_get _ _ _ Hnd Hin) in Hm.
Qed.

Lemma tracks_key C m x b tag : tracks C m → (x, b, tag) ∈ C → tag ∈ dict_keys m.
Proof.
  intros [_ Hm] Hin. specialize (Hm tag). apply dict_get_is_Some.
  destruct (dict_get tag m); [eauto|]. by destruct (Hm x b).
Qed.

(** A slug has one status in the mapping. *)
Lemma status_unique (s2s : list (string * bool)) x b1 b2 :
  NoDup (dict_keys s2s) → (x, b1) ∈ s2s → (x, b2) ∈ s2s → b1 = b2.
Proof.
  intros Hnd H1 H2.
  apply (elem_of_dict_get _ _ _ Hnd) in H1, H2. congruence.
Qed.

Lemma NoDup_slug_to_solved_status problems :
  NoDup (dict_keys (slug_to_solved_status problems)).
Proof. apply NoDup_dict_of_list. Qed.

Lemma elem_of_keys_slug_to_solved_status x problems :
  x ∈ dict_keys (slug_to_solved_status problems)
  ↔ ∃ p, p ∈ problems ∧ question__title_slug p = x.
Proof.
  unfold slug_to_solved_status. rewrite elem_of_dict_keys_of_list.
  rewrite <-list_fmap_compose, list_elem_of_fmap. naive_solver.
Qed.

Lemma ratio_Ok (round : Q → Q) (t : TagInfo) :
  size (solved t) + size (left t) ≠ 0 → ratio round t = Ok (ratio_of round t).
Proof. intros H. unfold ratio. by rewrite decide_False. Qed.

Lemma tracks_size C m tag info :
  tracks C m → (tag, info) ∈ m → size (solved info) + size (left info) ≠ 0.
Proof.
  intros Ht Hin. destruct (tracks_entry _ _ _ _ Ht Hin) as [(x & b & Hx) Hi].
  specialize (Hi x) as [Hs Hl]. destruct b.
  - apply Hs in Hx. assert (size (solved info) ≠ 0); [|lia].
    apply size_non_empty_iff. set_solver.
  - apply Hl in Hx. assert (size (left info) ≠ 0); [|lia].
    apply size_non_empty_iff. set_solver.
Qed.
End Aggregation.

Section Lookup.
Variable cache : string → result (option value).

Lemma get_tags_total slug : ∃ v, get_tags cache slug = Ok v.
Proof.
  unfold get_tags. destruct (cache (tags_key slug)) as [x|e]; simpl; eauto.
Qed.

Lemma get_tags_cached slug v :
  get_tags cache slug = Ok v → cached_tags cache slug = iter_value v.
Proof. unfold cached_tags. by intros ->. Qed.

Lemma problem_to_tags_spec (ks : list string) :
  ∃ ptt, problem_to_tags cache ks = Ok ptt ∧
         ∀ k, k ∈ ks → ∃ v, dict_get k ptt = Some v ∧ get_tags cache k = Ok v.
Proof.
  set (f := λ k, match get_tags cache k with Ok v => v | Raise _ => VTags [] end).
  assert (∀ k, get_tags cache k = Ok (f k)) as Hf.
  { intros k. unfold f. by destruct (get_tags_total k) as [v ->]. }
  unfold problem_to_tags. rewrite (mapM_Ok f) by auto. simpl.
  eexists. split; [done|]. intros k Hk. exists (f k). split; [|done].
  rewrite dict_get_of_list, zip_graph, <-fmap_reverse.
  apply dict_get_graph. by apply elem_of_reverse.
Qed.

Lemma elem_of_contributions x b tag (items : list (string * bool)) :
  (x, b, tag) ∈ contributions cache items
  ↔ (x, b) ∈ items ∧ tag ∈ cached_tags cache x.
Proof.
  unfold contributions. rewrite list_elem_of_bind. split.
  - intros ([y c] & H & Hy). apply list_elem_of_fmap in H as (t & [= -> -> ->] & Ht).
    done.
  - intros [Hx Ht]. exists (x, b). split; [|done].
    apply list_elem_of_fmap. by exists tag.
Qed.

Lemma aggregate_spec ptt (items : list (string * bool)) C m :
  (∀ k, k ∈ items.*1 → ∃ v, dict_get k ptt = Some v ∧ get_tags cache k = Ok v) →
  tracks C m →
  ∃ m', aggregate ptt items m = Ok m' ∧ tracks (C ++ contributions cache items) m'.
Proof.
  revert C m. induction items as [|[x b] items IH]; intros C m Hptt H; csimpl.
  - exists m. by rewrite app_nil_r.
  - destruct (Hptt x) as (v & Hv & Hg); [left|].
    unfold dict_item. rewrite Hv. simpl.
    rewrite (get_tags_cached _ _ Hg), app_assoc.
    apply IH; [|by apply tracks_foldl_add_to_tag].
    intros k Hk. apply Hptt. by right.
Qed.

(** The aggregation never raises, and the map it builds holds exactly
    the contributions of the input. *)
Lemma build_tag_info_map_spec (s2s : list (string * bool)) :
  ∃ m, build_tag_info_map cache s2s = Ok m ∧ tracks (contributions cache s2s) m.
Proof.
  unfold build_tag_info_map.
  destruct (problem_to_tags_spec (dict_keys s2s)) as (ptt & -> & Hptt). simpl.
  destruct (aggregate_spec ptt s2s [] [] Hptt tracks_nil) as (m & Hm & Ht).
  by exists m.
Qed.
End Lookup.

Section Selection.
Variable draws : nat → nat.
Variable round : Q → Q.

Lemma random_choice_nil i : random_choice draws [] i = Raise IndexError.
Proof. done. Qed.

Lemma random_choice_elements (X : gset string) i :
  X ≠ ∅ → ∃ x, random_choice draws (elements X) i = Ok (x, S i) ∧ x ∈ X.
Proof.
  intros HX. unfold random_choice.
  assert (length (elements X) ≠ 0) as Hlen.
  { intros H. apply HX. apply length_zero_iff_nil in H.
    by apply leibniz_equiv, elements_empty_iff. }
  destruct (lookup_lt_is_Some_2 (elements X) (draws i `mod` length (elements X)))
    as [x Hx]; [by apply Nat.mod_upper_bound|].
  exists x. rewrite Hx. split; [done|].
  apply elem_of_elements. by eapply list_elem_of_lookup_2.
Qed.

Lemma dict_set_fresh (k : string) (v : Q) (d : list (string * Q)) :
  k ∉ dict_keys d → dict_set k v d = d ++ [(k, v)].
Proof.
  unfold dict_keys. induction d as [|[k' v'] d IH]; csimpl; [done|].
  rewrite not_elem_of_cons. intros [Hne Hk].
  rewrite decide_False by done. by rewrite IH.
Qed.

(** One turn of the selection loop. *)
Lemma narrow_spec (st : selection) (item : string * TagInfo) :
  size (solved item.2) + size (left item.2) ≠ 0 →
  ∃ st', narrow draws round st item = Ok st' ∧
    to_solve_tasks st' = to_solve_tasks st ∩ left item.2 ∧
    tag_progress st' = dict_set item.1 (round (ratio_of round item.2 * 100)%Q) (tag_progress st) ∧
    (to_solve_tasks st' = ∅ → to_solve st' = to_solve st ∧ rng st' = rng st) ∧
    (to_solve_tasks st' ≠ ∅ →
       to_solve st' ∈ to_solve_tasks st' ∧
       random_choice draws (elements (to_solve_tasks st')) (rng st)
       = Ok (to_solve st', rng st')).
Proof.
  intros Hsz. unfold narrow. rewrite (ratio_Ok round _ Hsz).
  destruct (decide (to_solve_tasks st ∩ left item.2 = ∅)) as [He|Hne]; simpl.
  - eexists. split; [done|]. simpl. by split_and!.
  - destruct (random_choice_elements _ (rng st) Hne) as (x & Hx & Hin).
    rewrite Hx. simpl. eexists. split; [done|]. simpl. by split_and!.
Qed.

Lemma narrow_all_spec (K : gset string) (items : list (string * TagInfo)) (st : selection) :
  Forall (λ item, size (solved item.2) + size (left item.2) ≠ 0) items →
  NoDup (items.*1) →
  (∀ name, name ∈ items.*1 → name ∉ dict_keys (tag_progress st)) →
  to_solve st ∈ K → to_solve_tasks st ⊆ K →
  ∃ st', narrow_all draws round st items = Ok st' ∧
    to_solve st' ∈ K ∧ to_solve_tasks st' ⊆ to_solve_tasks st ∧
    tag_progress st'
    = tag_progress st ++ ((λ item, (item.1, round (ratio_of round item.2 * 100)%Q)) <$> items).
Proof.
  revert st. induction items as [|item items IH]; intros st Hsz Hnd Hfresh Hpick Hpool.
  - exists st. simpl. by rewrite app_nil_r.
  - apply Forall_cons in Hsz as [Hsz Hszs].
    rewrite fmap_cons in Hnd. apply NoDup_cons in Hnd as [Hitem Hnd].
    destruct (narrow_spec st item Hsz) as (st1 & Hst1 & Hp1 & Hprog & Hemp & Hnem).
    rewrite dict_set_fresh in Hprog by (apply Hfresh; left).
    destruct (IH st1) as (st' & Hst' & Hpick' & Hpool' & Hprog'); [done|done| | | |].
    + intros name Hname. rewrite Hprog. unfold dict_keys. rewrite fmap_app.
      rewrite not_elem_of_app. split; [apply Hfresh; by right|].
      csimpl. rewrite list_elem_of_singleton. by intros ->.
    + destruct (decide (to_solve_tasks st1 = ∅)) as [He|Hne].
      * by destruct (Hemp He) as [-> _].
      * destruct (Hnem Hne) as [Hin _]. set_solver.
    + set_solver.
    + exists st'. simpl. rewrite Hst1. simpl. split; [done|].
      split; [done|]. split; [set_solver|].
      rewrite Hprog', Hprog, <-app_assoc. done.
Qed.
End Selection.

Section Interpret.
Variable cache : string → result (option value).
Variable draws : nat → nat.
Variable round : Q → Q.

(** With at least one problem, the selection returns; the tags are
    ranked by ratio, the pick is one of the problems and the progress
    table lists the ranked tags. *)
Lemma select_spec (problems : list pair) (i : nat) :
  slug_to_solved_status problems ≠ [] →
  ∃ m ranked st,
    build_tag_info_map cache (slug_to_solved_status problems) = Ok m ∧
    ranked ≡ₚ m ∧
    StronglySorted (λ a b, (ratio_of round a.2 <= ratio_of round b.2)%Q) ranked ∧
    select cache draws round problems i = Ok st ∧
    to_solve st ∈ dict_keys (slug_to_solved_status problems) ∧
    to_solve_tasks st ⊆ candidate_pool (slug_to_solved_status problems) ∧
    tag_progress st = (λ item, (item.1, round (ratio_of round item.2 * 100)%Q)) <$> ranked.
Proof.
  intros Hne. unfold select.
  destruct (build_tag_info_map_spec cache (slug_to_solved_status problems))
    as (m & Hm & Ht).
  rewrite Hm. simpl.
  destruct (random_choice_elements draws _ i (candidate_pool_nonempty _ Hne))
    as (pick & Hpick & Hin).
  rewrite Hpick. simpl.
  assert (Forall (λ item : string * TagInfo,
                    size (solved item.2) + size (left item.2) ≠ 0) m) as Hsz.
  { apply Forall_forall. intros [tag info] Hi. simpl. by eapply tracks_size. }
  destruct (sorted_spec (λ x : string * TagInfo, ratio_of round x.2)
              (λ x : string * TagInfo, ratio round x.2) m)
    as (ranked & Hranked & Hperm & Hsorted).
  { intros a Ha. apply ratio_Ok. rewrite Forall_forall in Hsz. by apply Hsz. }
  rewrite Hranked. simpl.
  destruct (narrow_all_spec draws round (candidate_pool (slug_to_solved_status problems)) ranked
              {| to_solve_tasks := candidate_pool (slug_to_solved_status problems);
                 to_solve := pick; tag_progress := []; rng := S i |})
    as (st & Hst & Hp & Hpool & Hprog); simpl.
  - by rewrite Hperm.
  - rewrite Hperm. apply Ht.
  - intros name _. apply not_elem_of_nil.
  - done.
  - done.
  - exists m, ranked, st. split_and!; try done.
    unfold candidate_pool in Hp. by apply elem_of_list_to_set in Hp.
Qed.

Lemma select_empty (problems : list pair) (i : nat) :
  slug_to_solved_status problems = [] →
  select cache draws round problems i = Raise IndexError.
Proof.
  intros H. unfold select. rewrite H.
  destruct (build_tag_info_map_spec cache []) as (m & -> & _). simpl.
  unfold candidate_pool. simpl. by rewrite elements_empty.
Qed.

(** What [interpret] returns is built from what the selection left. *)
Lemma interpret_inv (problems : list pair) (i : nat) (b : body) (code : nat) :
  interpret cache draws round problems i = Ok (b, code) →
  ∃ st c, select cache draws round problems i = Ok st ∧ b = interpret_html c ∧ code = 200 ∧
          ctx_to_solve c = to_solve st ∧ ctx_tag_progress c = tag_progress st.
Proof.
  unfold interpret. destruct (select cache draws round problems i) as [st|e]; [|done].
  simpl. destruct (resolve _ _ _) as [nm|e]; [|done]. simpl.
  destruct (mapM _ _) as [names|e]; [|done]. simpl.
  intros [= <- <-]. by eexists _, _.
Qed.

Lemma quotient_bounds (a b : nat) :
  a + b ≠ 0 →
  (0 <= Z.of_nat a # Pos.of_nat (a + b))%Q ∧ (Z.of_nat a # Pos.of_nat (a + b) <= 1)%Q.
Proof.
  intros H. unfold Qle. simpl.
  assert (Z.pos (Pos.of_nat (a + b)) = Z.of_nat (a + b)) as E.
  { rewrite <-positive_nat_Z. by rewrite Nat2Pos.id. }
  rewrite E. lia.
Qed.

Lemma round_between (lo hi x : Q) :
  rounding round → (round lo == lo)%Q → (round hi == hi)%Q →
  (lo <= x)%Q → (x <= hi)%Q → (lo <= round x)%Q ∧ (round x <= hi)%Q.
Proof.
  intros Hr Hlo Hhi H1 H2. split.
  - apply Qle_trans with (round lo); [|by apply (round_mono _ Hr)].
    apply Qle_lteq. right. by symmetry.
  - apply Qle_trans with (round hi); [by apply (round_mono _ Hr)|].
    apply Qle_lteq. by right.
Qed.

Lemma ratio_of_bounds (t : TagInfo) :
  rounding round →
  size (solved t) + size (left t) ≠ 0 →
  (0 <= round (ratio_of round t * 100))%Q ∧ (round (ratio_of round t * 100) <= 100)%Q.
Proof.
  intros Hr H.
  destruct (quotient_bounds _ _ H) as [H0 H1].
  destruct (round_between 0 1 _ Hr (round_0 _ Hr) (round_1 _ Hr) H0 H1) as [Hr0 Hr1].
  fold (ratio_of round t) in Hr0, Hr1.
  apply (round_between 0 100 _ Hr (round_0 _ Hr) (round_100 _ Hr)).
  - apply Qmult_le_0_compat; [done|]. by unfold Qle.
  - apply Qle_trans with (1 * 100)%Q; [by apply Qmult_le_compat_r|]. by unfold Qle.
Qed.
End Interpret.

Section Claims.
Variable cache : string → result (option value).
Variable draws : nat → nat.
Variable round : Q → Q.

Lemma interpret_total (problems : list pair) (i : nat) :
  slug_to_solved_status problems ≠ [] →
  (∀ key, ∃ x, cache key = Ok x) →
  ∃ c, interpret cache draws round problems i = Ok (interpret_html c, 200).
Proof.
  intros Hne Hcache.
  destruct (select_spec cache draws round problems i Hne) as (m & ranked & st & _ & _ & _ & Hst & _).
  unfold interpret. rewrite Hst. simpl.
  assert (∀ key d, resolve cache key d
                   = Ok (match cache key with
                         | Ok x => or_else x (VText d)
                         | Raise _ => VText d
                         end)) as Hres.
  { intros key d. unfold resolve. by destruct (Hcache key) as [x ->]. }
  rewrite Hres. simpl.
  rewrite (mapM_Ok (λ kv : string * Q,
                      match cache (tag_name_key kv.1) with
                      | Ok x => or_else x (VText kv.1)
                      | Raise _ => VText kv.1
                      end)) by (intros; apply Hres).
  simpl. by eexists.
Qed.

(** C1 (as the code has it): a turn of the selection loop always
    replaces the candidate pool by its intersection with the tag's left
    set.  When that intersection is empty the pool is empty from then
    on, the pick is kept and no draw is made; when it is not empty, the
    pick is drawn anew, from the intersection. *)
Theorem narrow_replaces_pool (st : selection) (item : string * TagInfo) :
  size (solved item.2) + size (left item.2) ≠ 0 →
  ∃ st', narrow draws round st item = Ok st' ∧
    to_solve_tasks st' = to_solve_tasks st ∩ left item.2 ∧
    (to_solve_tasks st ∩ left item.2 = ∅ →
       to_solve_tasks st' = ∅ ∧ to_solve st' = to_solve st ∧ rng st' = rng st ∧
       ∀ later st'', narrow draws round st' later = Ok st'' →
                     to_solve_tasks st'' = ∅ ∧ to_solve st'' = to_solve st) ∧
    (to_solve_tasks st ∩ left item.2 ≠ ∅ →
       to_solve st' ∈ to_solve_tasks st ∩ left item.2 ∧
       random_choice draws (elements (to_solve_tasks st ∩ left item.2)) (rng st)
       = Ok (to_solve st', rng st')).
Proof.
  intros Hsz.
  destruct (narrow_spec draws round st item Hsz) as (st' & Hst' & Hpool & _ & Hemp & Hnem).
  exists st'. split; [done|]. split; [done|]. rewrite <-Hpool. split.
  - intros He. destruct (Hemp He) as [Hpick Hrng]. split_and!; try done.
    intros later st'' Hl. unfold narrow in Hl.
    rewrite He in Hl. rewrite decide_True in Hl by set_solver.
    simpl in Hl. destruct (ratio round later.2); [|done]. simpl in Hl.
    injection Hl as <-. simpl. split; [set_solver|done].
  - intros Hne. by apply Hnem.
Qed.

(** C3: with at least one problem in the input, the selection returns
    and its pick is one of the input slugs, whatever the cache holds and
    whatever is drawn; hence so is the slug of every page that
    [interpret] returns, and it returns one whenever the cache reads do
    not raise. *)
Theorem pick_is_input_slug (problems : list pair) (i : nat) :
  slug_to_solved_status problems ≠ [] →
  (∃ st, select cache draws round problems i = Ok st ∧
         to_solve st ∈ dict_keys (slug_to_solved_status problems)) ∧
  (∀ b code, interpret cache draws round problems i = Ok (b, code) →
     ∃ c, b = interpret_html c ∧
          ctx_to_solve c ∈ dict_keys (slug_to_solved_status problems)) ∧
  ((∀ key, ∃ x, cache key = Ok x) →
     ∃ c, interpret cache draws round problems i = Ok (interpret_html c, 200)).
Proof.
  intros Hne.
  destruct (select_spec cache draws round problems i Hne)
    as (m & ranked & st & _ & _ & _ & Hst & Hpick & _).
  split_and!.
  - by exists st.
  - intros b code Hi.
    destruct (interpret_inv cache draws round _ _ _ _ Hi) as (st' & c & Hst' & -> & _ & Hc & _).
    exists c. split; [done|]. rewrite Hc. congruence.
  - by apply interpret_total.
Qed.

(** C4: the progress table that the selection builds lists the tags of
    the aggregation map, each with its ratio as a percentage, in
    non-decreasing order of ratio, and every recorded value lies between
    0 and 100; the page of [interpret] shows that table.  This holds for
    any rounding of the float operations that keeps the order and leaves
    0, 1 and 100 as they are. *)
Theorem tag_progress_sorted_bounded (problems : list pair) (i : nat) (st : selection) :
  rounding round →
  select cache draws round problems i = Ok st →
  StronglySorted Qle (tag_progress st).*2 ∧
  Forall (λ q, (0 <= q)%Q ∧ (q <= 100)%Q) (tag_progress st).*2 ∧
  (∃ m ranked, build_tag_info_map cache (slug_to_solved_status problems) = Ok m ∧
               ranked ≡ₚ m ∧
               tag_progress st
               = (λ item, (item.1, round (ratio_of round item.2 * 100)%Q)) <$> ranked) ∧
  (∀ b code, interpret cache draws round problems i = Ok (b, code) →
     ∃ c, b = interpret_html c ∧ ctx_tag_progress c = tag_progress st).
Proof.
  intros Hr Hst.
  destruct (decide (slug_to_solved_status problems = [])) as [He|Hne].
  { rewrite (select_empty cache draws round _ i He) in Hst. done. }
  destruct (select_spec cache draws round problems i Hne)
    as (m & ranked & st' & Hm & Hperm & Hsorted & Hst' & _ & _ & Hprog).
  assert (st' = st) as -> by congruence.
  destruct (build_tag_info_map_spec cache (slug_to_solved_status problems))
    as (m' & Hm' & Ht).
  assert (m' = m) as -> by congruence.
  split_and!.
  - rewrite Hprog, <-list_fmap_compose.
    eapply StronglySorted_fmap; [|exact Hsorted].
    intros a b Hab. simpl. apply (round_mono _ Hr). by apply Qmult_le_compat_r.
  - rewrite Hprog, <-list_fmap_compose. apply Forall_fmap, Forall_forall.
    intros [tag info] Hin. simpl. apply ratio_of_bounds; [done|].
    rewrite Hperm in Hin. by eapply tracks_size.
  - by exists m, ranked.
  - intros b code Hi.
    destruct (interpret_inv cache draws round _ _ _ _ Hi) as (st' & c & Hst'' & -> & _ & _ & Hc).
    exists c. split; [done|]. rewrite Hc. congruence.
Qed.

(** C5: with no problem in the input the selection raises, at the first
    [random.choice]; [interpret] returns no page, and [main], which does
    not catch, fails the request with that exception. *)
Theorem empty_input_fails (problems : list pair) (i : nat) :
  slug_to_solved_status problems = [] →
  select cache draws round problems i = Raise IndexError ∧
  interpret cache draws round problems i = Raise IndexError ∧
  ∀ req, method req = "POST" → form_validate req = true →
         stat_status_pairs req = problems →
         main cache draws round req i = Raise IndexError.
Proof.
  intros He. pose proof (select_empty cache draws round problems i He) as Hs.
  assert (interpret cache draws round problems i = Raise IndexError) as Hi.
  { unfold interpret. by rewrite Hs. }
  split_and!; [done|done|].
  intros req Hm Hv <-. unfold main.
  by rewrite Hm, Hv, bool_decide_eq_true_2.
Qed.
End Claims.

Section CacheClaims.
Variable cache : string → result (option value).

Lemma get_tags_miss slug :
  cache (tags_key slug) = Ok None ∨ (∃ e, cache (tags_key slug) = Raise e) →
  get_tags cache slug = Ok (VTags []).
Proof. unfold get_tags. by intros [->|[e ->]]. Qed.

(** C7: [get_tags] returns for every slug, whatever the cache does.
    For a slug whose cache read raises or finds nothing it returns the
    empty list: the slug has an entry in the slug-to-tags mapping (as
    every input slug has), it is in the initial candidate pool, and it
    is in no set of the aggregation map. *)
Theorem get_tags_never_raises (problems : list pair) (slug : string) :
  cache (tags_key slug) = Ok None ∨ (∃ e, cache (tags_key slug) = Raise e) →
  slug ∈ dict_keys (slug_to_solved_status problems) →
  (∀ s, ∃ v, get_tags cache s = Ok v) ∧
  get_tags cache slug = Ok (VTags []) ∧
  (∃ ptt, problem_to_tags cache (dict_keys (slug_to_solved_status problems)) = Ok ptt ∧
          (∀ s, s ∈ dict_keys (slug_to_solved_status problems) → is_Some (dict_get s ptt)) ∧
          dict_get slug ptt = Some (VTags [])) ∧
  slug ∈ candidate_pool (slug_to_solved_status problems) ∧
  (∃ m, build_tag_info_map cache (slug_to_solved_status problems) = Ok m ∧
        ∀ tag info, (tag, info) ∈ m → (slug ∉ solved info) ∧ (slug ∉ left info)).
Proof.
  intros Hmiss Hin. pose proof (get_tags_miss slug Hmiss) as Hg.
  split_and!.
  - apply get_tags_total.
  - done.
  - destruct (problem_to_tags_spec cache (dict_keys (slug_to_solved_status problems)))
      as (ptt & Hptt & Hk).
    exists ptt. split_and!; [done| |].
    + intros s Hs. destruct (Hk s Hs) as (v & -> & _). eauto.
    + destruct (Hk slug Hin) as (v & -> & Hv). congruence.
  - unfold candidate_pool. by apply elem_of_list_to_set.
  - destruct (build_tag_info_map_spec cache (slug_to_solved_status problems))
      as (m & Hm & Ht).
    exists m. split; [done|]. intros tag info Hi.
    destruct (tracks_entry _ _ _ _ Ht Hi) as [_ Hx]. specialize (Hx slug) as [Hs Hl].
    rewrite Hs, Hl, !elem_of_contributions.
    rewrite (get_tags_cached _ _ _ Hg). simpl.
    split; intros [_ H]; by apply elem_of_nil in H.
Qed.

(** C8: in the aggregation map every tag has disjoint solved and left
    sets which hold at least one slug between them, so that computing
    its ratio does not divide by zero. *)
Theorem tag_sets_disjoint_nonempty (problems : list pair)
    (m : list (string * TagInfo)) (tag : string) (info : TagInfo) :
  build_tag_info_map cache (slug_to_solved_status problems) = Ok m →
  (tag, info) ∈ m →
  solved info ## left info ∧
  1 ≤ size (solved info) + size (left info) ∧
  ∀ round, ratio round info = Ok (ratio_of round info).
Proof.
  intros Hm Hin.
  destruct (build_tag_info_map_spec cache (slug_to_solved_status problems))
    as (m' & Hm' & Ht).
  assert (m' = m) as -> by congruence.
  pose proof (tracks_size _ _ _ _ Ht Hin) as Hsz.
  split_and!; [|lia|by intros round; apply ratio_Ok].
  destruct (tracks_entry _ _ _ _ Ht Hin) as [_ Hx].
  intros x Hs Hl. destruct (Hx x) as [Hs' Hl'].
  apply Hs', elem_of_contributions in Hs as [Hs _].
  apply Hl', elem_of_contributions in Hl as [Hl _].
  pose proof (status_unique _ _ _ _ (NoDup_slug_to_solved_status problems) Hs Hl).
  done.
Qed.

(** C10: when a slug occurs several times in the input, the mapping has
    one entry for it, with the status of its last occurrence; in the
    aggregation the slug is in the solved set of each of its tags when
    that status is "ac" and in the left set otherwise, never in both,
    and in no set of any other tag. *)
Theorem last_status_wins (before after : list pair) (p : pair) :
  (∀ r, r ∈ after → question__title_slug r ≠ question__title_slug p) →
  dict_get (question__title_slug p) (slug_to_solved_status (before ++ p :: after))
  = Some (bool_decide (status p = Some "ac")) ∧
  NoDup (dict_keys (slug_to_solved_status (before ++ p :: after))) ∧
  ∃ m, build_tag_info_map cache (slug_to_solved_status (before ++ p :: after)) = Ok m ∧
       (∀ tag, tag ∈ cached_tags cache (question__title_slug p) →
               ∃ info, (tag, info) ∈ m) ∧
       ∀ tag info, (tag, info) ∈ m →
         (question__title_slug p ∈ solved info
          ↔ status p = Some "ac" ∧ tag ∈ cached_tags cache (question__title_slug p)) ∧
         (question__title_slug p ∈ left info
          ↔ status p ≠ Some "ac" ∧ tag ∈ cached_tags cache (question__title_slug p)) ∧
         ¬ (question__title_slug p ∈ solved info ∧ question__title_slug p ∈ left info).
Proof.
  intros Hlast.
  set (problems := before ++ p :: after).
  set (x := question__title_slug p).
  assert (dict_get x (slug_to_solved_status problems)
          = Some (bool_decide (status p = Some "ac"))) as Hget.
  { unfold slug_to_solved_status, problems.
    rewrite dict_get_of_list, fmap_app, fmap_cons, reverse_app, reverse_cons.
    rewrite !dict_get_app.
    assert (dict_get x (reverse ((λ q, (question__title_slug q,
                                        bool_decide (status q = Some "ac"))) <$> after))
            = None) as ->.
    { apply dict_get_None. unfold dict_keys.
      rewrite <-fmap_reverse, <-list_fmap_compose. intros Hx.
      apply list_elem_of_fmap in Hx as (r & Hr & Hin). simpl in Hr.
      rewrite !elem_of_reverse in Hin. by apply (Hlast r Hin). }
    csimpl. by rewrite decide_True. }
  pose proof (NoDup_slug_to_solved_status problems) as Hnd.
  split_and!; [done|done|].
  destruct (build_tag_info_map_spec cache (slug_to_solved_status problems))
    as (m & Hm & Ht).
  exists m. split; [done|].
  assert (∀ b, (x, b) ∈ slug_to_solved_status problems
               ↔ b = bool_decide (status p = Some "ac")) as Hstatus.
  { intros b. split.
    - intros Hb. apply (elem_of_dict_get _ _ _ Hnd) in Hb. congruence.
    - intros ->. by apply dict_get_elem_of. }
  split.
  - intros tag Htag.
    assert (tag ∈ dict_keys m) as Hk.
    { eapply (tracks_key _ _ x _ tag Ht). apply elem_of_contributions.
      split; [by apply Hstatus|done]. }
    apply dict_get_is_Some in Hk as [info Hinfo].
    exists info. by apply dict_get_elem_of.
  - intros tag info Hin.
    destruct (tracks_entry _ _ _ _ Ht Hin) as [_ Hx]. specialize (Hx x) as [Hs Hl].
    rewrite Hs, Hl, !elem_of_contributions, !Hstatus.
    split_and!.
    + split; intros [Hb ?]; (split; [|done]).
      * symmetry in Hb. by apply bool_decide_eq_true in Hb.
      * symmetry. by apply bool_decide_eq_true.
    + split; intros [Hb ?]; (split; [|done]).
      * symmetry in Hb. by apply bool_decide_eq_false in Hb.
      * symmetry. by apply bool_decide_eq_false.
    + intros [[Hb1 _] [Hb2 _]]. congruence.
Qed.
End CacheClaims.

(** ** The properties on concrete inputs *)

(** Where every quotient and product is a float, nothing is rounded. *)
Lemma exact_rounding : rounding (λ q, q).
Proof. by split. Defined.

(** C1 as the specification words it fails: in the run on
    [narrowing_input] the turn of [t2] meets a pool [{a, c}] whose
    intersection with the left set [{b}] is empty, and leaves the pool
    empty instead of unchanged; so the turn of [t3], whose left set is
    [{a}], cannot narrow any more and the run ends with the pick [c]. *)
Lemma narrow_keeps_pool_counterexample :
  to_solve_tasks after_t1 ∩ left t2_item.2 = ∅ ∧
  (∃ st', narrow (λ _, 0) (λ q, q) after_t1 t2_item = Ok st' ∧
          to_solve_tasks st' = ∅ ∧
          to_solve_tasks st' ≠ to_solve_tasks after_t1) ∧
  select narrowing_cache (λ _, 0) (λ q, q) narrowing_input 0
  = Ok {| to_solve_tasks := ∅; to_solve := "c";
          tag_progress := [("t1", 0 # 2); ("t2", 100 # 2); ("t3", 200 # 3)];
          rng := 2 |}.
Proof.
  split_and!.
  - by vm_compute.
  - exists {| to_solve_tasks := ∅; to_solve := "c";
              tag_progress := [("t1", 0 # 2); ("t2", 100 # 2)]; rng := 2 |}.
    split; [by vm_compute|]. split; [done|].
    simpl. intros H. assert ("a" ∈ (∅ : gset string)) as Ha by (rewrite H; set_solver).
    set_solver.
  - by vm_compute.
Qed.

Lemma narrow_replaces_pool_witness :
  size (solved t2_item.2) + size (left t2_item.2) ≠ 0 ∧
  ∃ st', narrow (λ _, 0) (λ q, q) after_t1 t2_item = Ok st' ∧
         to_solve_tasks st' = to_solve_tasks after_t1 ∩ left t2_item.2.
Proof.
  assert (size (solved t2_item.2) + size (left t2_item.2) ≠ 0) as H
    by (vm_compute; discriminate).
  split; [exact H|].
  destruct (narrow_replaces_pool (λ _, 0) (λ q, q) after_t1 t2_item H) as (st' & Hst' & Hpool & _).
  by exists st'.
Defined.

Lemma pick_is_input_slug_witness :
  slug_to_solved_status scenario_input ≠ [] ∧
  ∃ st, select scenario_cache (λ _, 0) (λ q, q) scenario_input 0 = Ok st ∧
        to_solve st ∈ dict_keys (slug_to_solved_status scenario_input).
Proof.
  assert (slug_to_solved_status scenario_input ≠ []) as H by (vm_compute; discriminate).
  split; [exact H|].
  exact (proj1 (pick_is_input_slug scenario_cache (λ _, 0) (λ q, q) scenario_input 0 H)).
Defined.

Lemma tag_progress_sorted_bounded_witness :
  select scenario_cache (λ _, 0) (λ q, q) scenario_input 0
  = Ok {| to_solve_tasks := ∅; to_solve := "a";
          tag_progress := [("dp", 100 # 2); ("greedy", 100 # 1)]; rng := 2 |} ∧
  StronglySorted Qle [100 # 2; 100 # 1] ∧
  Forall (λ q, (0 <= q)%Q ∧ (q <= 100)%Q) [100 # 2; 100 # 1].
Proof.
  assert (select scenario_cache (λ _, 0) (λ q, q) scenario_input 0
          = Ok {| to_solve_tasks := ∅; to_solve := "a";
                  tag_progress := [("dp", 100 # 2); ("greedy", 100 # 1)]; rng := 2 |}) as H
    by (vm_compute; reflexivity).
  split; [exact H|].
  destruct (tag_progress_sorted_bounded scenario_cache (λ _, 0) (λ q, q) scenario_input 0 _
              exact_rounding H)
    as (Hs & Hb & _).
  split; [exact Hs|exact Hb].
Defined.

Lemma empty_input_fails_witness :
  slug_to_solved_status [] = [] ∧
  select scenario_cache (λ _, 0) (λ q, q) [] 0 = Raise IndexError ∧
  main scenario_cache (λ _, 0) (λ q, q)
       {| method := "POST"; form_validate := true; stat_status_pairs := [] |} 0
  = Raise IndexError.
Proof.
  split; [reflexivity|].
  destruct (empty_input_fails scenario_cache (λ _, 0) (λ q, q) [] 0 eq_refl) as (Hs & _ & Hm).
  split; [exact Hs|]. apply Hm; reflexivity.
Defined.

Lemma get_tags_never_raises_witness :
  (flaky_cache (tags_key "b") = Ok None ∨ ∃ e, flaky_cache (tags_key "b") = Raise e) ∧
  "b" ∈ dict_keys (slug_to_solved_status scenario_input) ∧
  get_tags flaky_cache "b" = Ok (VTags []) ∧
  "b" ∈ candidate_pool (slug_to_solved_status scenario_input).
Proof.
  assert (flaky_cache (tags_key "b") = Ok None ∨ ∃ e, flaky_cache (tags_key "b") = Raise e)
    as Hmiss by (right; exists CacheError; reflexivity).
  assert ("b" ∈ dict_keys (slug_to_solved_status scenario_input)) as Hin
    by (vm_compute; repeat constructor).
  split; [exact Hmiss|]. split; [exact Hin|].
  destruct (get_tags_never_raises flaky_cache scenario_input "b" Hmiss Hin)
    as (_ & Hg & _ & Hp & _).
  split; [exact Hg|exact Hp].
Defined.

Lemma tag_sets_disjoint_nonempty_witness :
  build_tag_info_map scenario_cache (slug_to_solved_status scenario_input)
  = Ok scenario_tag_info_map ∧
  ("dp", {| solved := {["b"]}; left := {["a"]} |}) ∈ scenario_tag_info_map ∧
  ({["b"]} : gset string) ## {["a"]} ∧
  1 ≤ size ({["b"]} : gset string) + size ({["a"]} : gset string).
Proof.
  assert (build_tag_info_map scenario_cache (slug_to_solved_status scenario_input)
          = Ok scenario_tag_info_map) as Hm by (vm_compute; reflexivity).
  assert (("dp", {| solved := {["b"]}; left := {["a"]} |}) ∈ scenario_tag_info_map) as Hin
    by (unfold scenario_tag_info_map; constructor).
  split; [exact Hm|]. split; [exact Hin|].
  destruct (tag_sets_disjoint_nonempty scenario_cache scenario_input _ _ _ Hm Hin)
    as (Hd & Hs & _).
  split; [exact Hd|exact Hs].
Defined.

Lemma last_status_wins_witness :
  (∀ r, r ∈ [] → question__title_slug r ≠ question__title_slug twice_last) ∧
  dict_get "a" (slug_to_solved_status (twice_before ++ [twice_last])) = Some false.
Proof.
  assert (∀ r, r ∈ [] → question__title_slug r ≠ question__title_slug twice_last) as H.
  { intros r Hr. inversion Hr. }
  split; [exact H|].
  exact (proj1 (last_status_wins scenario_cache twice_before [] twice_last H)).
Defined.

End DefaultFacts.

(** * Facts about the population worker *)

Module WorkerFacts.
Import Worker.

Section Cache.
Implicit Types (w : world) (key : string).

Lemma cache_get_set key key' v time w :
  cache_get key (cache_set key' v time w)
  = if decide (key' = key)
    then (if decide (time ≤ 2592000)%Z then Some v else None)
    else cache_get key w.
Proof.
  unfold cache_get, cache_set. simpl.
  destruct (decide (time ≤ 2592000)%Z).
  - rewrite lookup_insert. by case_decide.
  - rewrite lookup_delete. by case_decide.
Qed.

(** A write with a time of at most 30 days removes nothing. *)
Lemma cache_set_keeps key key' v time w :
  (time ≤ 2592000)%Z →
  is_not_None (cache_get key w) = true →
  is_not_None (cache_get key (cache_set key' v time w)) = true.
Proof. intros Ht. rewrite cache_get_set. rewrite (decide_True _ _ Ht). by case_decide. Qed.

Lemma cache_set_present key v time w :
  (time ≤ 2592000)%Z →
  is_not_None (cache_get key (cache_set key v time w)) = true.
Proof. intros Ht. rewrite cache_get_set. by rewrite !decide_True. Qed.

(** A write with a larger time leaves the key absent. *)
Lemma cache_set_expired key key' v time w :
  (2592000 < time)%Z →
  store (cache_set key' v time w) !! key = None ↔ key' = key ∨ store w !! key = None.
Proof.
  intros Ht. unfold cache_set. simpl. rewrite decide_False by lia.
  rewrite lookup_delete. case_decide; naive_solver.
Qed.

Lemma check_cache_problem_store slug w1 w2 :
  store w1 = store w2 → check_cache_problem slug w1 = check_cache_problem slug w2.
Proof.
  intros H. unfold check_cache_problem, cache_get. by rewrite H.
Qed.

(** What the check amounts to: the names of the tags play no part. *)
Lemma check_cache_problem_unfold slug w :
  check_cache_problem slug w
  = is_not_None (cache_get (tags_key slug) w)
    && is_not_None (cache_get (problem_tags_key slug) w)
    && is_not_None (cache_get (problem_title_key slug) w).
Proof. unfold check_cache_problem. simpl. by rewrite andb_true_r. Qed.

Lemma log_foldl_names (time : Z) (tags : list tag) w :
  log (foldl (λ w t, cache_set (tag_name_key (slug t)) (VText (name t)) time w) w tags)
  = log w ++ ((λ t, CacheSet (tag_name_key (slug t)) (VText (name t)) time) <$> tags).
Proof.
  revert w. induction tags as [|t tags IH]; intros w; csimpl.
  - by rewrite app_nil_r.
  - rewrite IH. simpl. by rewrite <-app_assoc.
Qed.

Lemma rng_foldl_names (time : Z) (tags : list tag) w :
  rng (foldl (λ w t, cache_set (tag_name_key (slug t)) (VText (name t)) time w) w tags)
  = rng w.
Proof. revert w. induction tags as [|t tags IH]; intros w; csimpl; [done|]. by rewrite IH. Qed.

(** Every name written with a time of at most 30 days is present
    afterwards. *)
Lemma names_foldl_present (time : Z) (tags : list tag) w t :
  (time ≤ 2592000)%Z →
  t ∈ tags →
  check_cache_tag (slug t)
    (foldl (λ w t, cache_set (tag_name_key (slug t)) (VText (name t)) time w) w tags)
  = true.
Proof.
  intros Htime.
  assert (∀ tags w, check_cache_tag (slug t) w = true →
            check_cache_tag (slug t)
              (foldl (λ w t, cache_set (tag_name_key (slug t)) (VText (name t)) time w)
                     w tags) = true) as Hkeep.
  { clear -Htime. intros tags. induction tags as [|t' tags IH]; intros w H; csimpl; [done|].
    apply IH. by apply cache_set_keeps. }
  revert w. induction tags as [|t' tags IH]; intros w Hin; csimpl.
  - by apply elem_of_nil in Hin.
  - apply elem_of_cons in Hin as [->|Hin]; [|by apply IH].
    apply Hkeep. by apply cache_set_present.
Qed.
End Cache.

Section Population.
Variable upstream : string → result detail.
Variable draws : nat → nat.

Lemma randint_bounds (a b : Z) (i : nat) :
  (a ≤ b)%Z → (a ≤ randint draws a b i ≤ b)%Z.
Proof.
  intros H. unfold randint.
  pose proof (Z.mod_pos_bound (Z.of_nat (draws i)) (b - a + 1)). lia.
Qed.

Lemma cache_set_entry key key' v time w e :
  store (cache_set key' v time w) !! key = Some e →
  store w !! key = Some e ∨ entry_time e = time.
Proof.
  unfold cache_set. simpl. destruct (decide (time ≤ 2592000)%Z).
  - rewrite lookup_insert. case_decide; [|by left]. intros [= <-]. by right.
  - rewrite lookup_delete. case_decide; [done|by left].
Qed.

Lemma names_foldl_entry (time : Z) (tags : list tag) w key e :
  store (foldl (λ w t, cache_set (tag_name_key (slug t)) (VText (name t)) time w) w tags)
    !! key = Some e →
  store w !! key = Some e ∨ entry_time e = time.
Proof.
  revert w. induction tags as [|t tags IH]; intros w; csimpl; [by left|].
  intros H. apply IH in H as [H|H]; [|by right].
  by apply cache_set_entry in H.
Qed.

(** A task for a slug that is not reported as cached, when the catalog
    provider answers: one query, then the writes, all with the
    time-to-live drawn at the start.  When that time-to-live is at most
    30 days, the slug is reported as cached afterwards and each of its
    tags has a name. *)
Lemma invalidate_cache_populates (req : request) (w : world) (s : string) (d : detail) :
  header_set (queue_name req) = true →
  form_slug req = Some s →
  check_cache_problem s w = false →
  upstream s = Ok d →
  ∃ w', invalidate_cache upstream draws req w = (Ok ("OK", 200), w') ∧
    log w' = log w ++ UpstreamQuery s
               :: writes s d (86400 * 30 + randint draws (-86400) 86400 (rng w)) ∧
    rng w' = S (rng w) ∧
    (∀ key e, store w' !! key = Some e →
              store w !! key = Some e ∨
              entry_time e = (86400 * 30 + randint draws (-86400) 86400 (rng w))%Z) ∧
    ((randint draws (-86400) 86400 (rng w) ≤ 0)%Z →
     check_cache_problem s w' = true ∧
     ∀ t, t ∈ topic_tags d → check_cache_tag (slug t) w' = true).
Proof.
  intros Hh Hs Hc Hu. unfold invalidate_cache. rewrite Hh, Hs. simpl.
  rewrite (check_cache_problem_store s _ w) by done. rewrite Hc.
  unfold get_problem_detail. rewrite Hu. simpl.
  eexists. split; [reflexivity|]. split_and!.
  - simpl. rewrite log_foldl_names. simpl. unfold writes.
    by rewrite <-!app_assoc.
  - simpl. by rewrite rng_foldl_names.
  - intros key e H.
    repeat (apply cache_set_entry in H as [H|H]; [|by right]).
    by apply names_foldl_entry in H.
  - intros Hj.
    assert (86400 * 30 + randint draws (-86400) 86400 (rng w) ≤ 2592000)%Z as Ht by lia.
    split.
    + rewrite check_cache_problem_unfold. rewrite !andb_true_iff. split_and!.
      * do 2 (apply cache_set_keeps; [done|]). by apply cache_set_present.
      * apply cache_set_keeps; [done|]. by apply cache_set_present.
      * by apply cache_set_present.
    + intros t Hin. unfold check_cache_tag. do 3 (apply cache_set_keeps; [done|]).
      by apply (names_foldl_present _ _ _ t).
Qed.
End Population.

Section Claims.
Variable upstream : string → result detail.
Variable draws : nat → nat.

Lemma invalidate_cache_denied (req : request) (w : world) :
  header_set (queue_name req) = false →
  invalidate_cache upstream draws req w = (Ok ("FAIL", 403), w).
Proof. intros H. unfold invalidate_cache. by rewrite H. Qed.

Lemma invalidate_cache_no_slug (req : request) (w : world) :
  header_set (queue_name req) = true → form_slug req = None →
  (invalidate_cache upstream draws req w).1 = Raise KeyError.
Proof. intros Hh Hs. unfold invalidate_cache. by rewrite Hh, Hs. Qed.

(** A task for a slug that is reported as cached does nothing but draw
    its time-to-live. *)
Lemma invalidate_cache_cached (req : request) (w : world) (s : string) :
  header_set (queue_name req) = true → form_slug req = Some s →
  check_cache_problem s w = true →
  invalidate_cache upstream draws req w
  = (Ok ("OK", 200), {| store := store w; log := log w; rng := S (rng w) |}).
Proof.
  intros Hh Hs Hc. unfold invalidate_cache. rewrite Hh, Hs. simpl.
  rewrite (check_cache_problem_store s _ w) by done. by rewrite Hc.
Qed.

Lemma invalidate_cache_upstream_fails (req : request) (w : world) (s : string) (e : exn) :
  header_set (queue_name req) = true → form_slug req = Some s →
  check_cache_problem s w = false → upstream s = Raise e →
  (invalidate_cache upstream draws req w).1 = Raise e.
Proof.
  intros Hh Hs Hc Hu. unfold invalidate_cache. rewrite Hh, Hs. simpl.
  rewrite (check_cache_problem_store s _ w) by done. rewrite Hc.
  unfold get_problem_detail. by rewrite Hu.
Qed.

(** When the time-to-live drawn by a task is at most 30 days and the
    task completes, the slug is reported as cached in the world it
    leaves, so that running the task again does nothing. *)
Lemma completed_task_is_cached (req : request) (w w1 : world) (r : string * nat)
    (s : string) :
  invalidate_cache upstream draws req w = (Ok r, w1) →
  header_set (queue_name req) = true →
  form_slug req = Some s →
  (randint draws (-86400) 86400 (rng w) ≤ 0)%Z →
  check_cache_problem s w1 = true.
Proof.
  intros H Hh Hs Hj.
  destruct (check_cache_problem s w) eqn:Hc.
  - rewrite (invalidate_cache_cached req w s) in H by done.
    injection H as _ <-. by rewrite (check_cache_problem_store s _ w).
  - destruct (upstream s) as [d|e] eqn:Hu.
    + destruct (invalidate_cache_populates upstream draws req w s d Hh Hs Hc Hu)
        as (w' & Hw' & _ & _ & _ & Hc').
      rewrite Hw' in H. injection H as _ <-. by apply Hc'.
    + pose proof (invalidate_cache_upstream_fails req w s e Hh Hs Hc Hu) as Hn.
      rewrite H in Hn. done.
Qed.

(** C9: in one population every write (the name of each tag, the tag
    list under both keys, the title) carries the same time-to-live, 30
    days plus a jitter between minus one day and plus one day, so
    between 29 and 31 days; an entry of the store that the task touched
    carries it too. *)
Theorem population_has_one_ttl (req : request) (w : world) (s : string) (d : detail) :
  header_set (queue_name req) = true →
  form_slug req = Some s →
  check_cache_problem s w = false →
  upstream s = Ok d →
  ∃ jitter w',
    (-86400 ≤ jitter ≤ 86400)%Z ∧
    (86400 * 29 ≤ 86400 * 30 + jitter ≤ 86400 * 31)%Z ∧
    invalidate_cache upstream draws req w = (Ok ("OK", 200), w') ∧
    log w' = log w ++ UpstreamQuery s :: writes s d (86400 * 30 + jitter) ∧
    Forall (λ ev, event_time ev = Some (86400 * 30 + jitter)%Z)
           (writes s d (86400 * 30 + jitter)) ∧
    (∀ key e, store w' !! key = Some e →
              store w !! key = Some e ∨ entry_time e = (86400 * 30 + jitter)%Z).
Proof.
  intros Hh Hs Hc Hu.
  destruct (invalidate_cache_populates upstream draws req w s d Hh Hs Hc Hu)
    as (w' & Hw' & Hlog & _ & Hstore & _).
  pose proof (randint_bounds draws (-86400) 86400 (rng w)) as Hj.
  exists (randint draws (-86400) 86400 (rng w)), w'.
  split_and!; [lia|lia|lia|lia|done|done| |done].
  unfold writes. apply Forall_app. split.
  - apply Forall_fmap, Forall_forall. by intros t _.
  - by repeat constructor.
Qed.
End Claims.

(** C2 on the code: the cache [stale_world] holds both tag lists and the
    title of [two-sum], its tag [array] has no name entry, and the check
    still reports the problem as cached.  The check reads
    [all(...) is not None], which holds whatever [all] returns. *)
Theorem check_cache_problem_skips_tag_names :
  cache_get (problem_tags_key "two-sum") stale_world = Some (VTags ["array"]) ∧
  check_cache_tag "array" stale_world = false ∧
  check_cache_problem "two-sum" stale_world = true.
Proof. by vm_compute. Qed.

(** C6 on the code: with the draw 86401 the jitter is 1 and the
    time-to-live 2592001, one second above 30 days.  The first task for
    [two-sum] completes, but memcache reads that time as a date of 1970:
    the store holds nothing afterwards and the check does not report the
    slug as cached.  The second task queries the catalog provider again
    and repeats every write. *)
Theorem second_task_queries_again :
  (invalidate_cache one_problem (λ _, 86401) (task "two-sum") empty_world).1
  = Ok ("OK", 200) ∧
  store (invalidate_cache one_problem (λ _, 86401) (task "two-sum") empty_world).2 = ∅ ∧
  check_cache_problem "two-sum"
    (invalidate_cache one_problem (λ _, 86401) (task "two-sum") empty_world).2 = false ∧
  log (invalidate_cache one_problem (λ _, 86401) (task "two-sum")
         (invalidate_cache one_problem (λ _, 86401) (task "two-sum") empty_world).2).2
  = log (invalidate_cache one_problem (λ _, 86401) (task "two-sum") empty_world).2
    ++ UpstreamQuery "two-sum"
       :: writes "two-sum"
            {| title := "Two Sum";
               topic_tags := [ {| name := "Array"; slug := "array" |};
                               {| name := "Hash Table"; slug := "hash-table" |} ] |}
            2592001.
Proof. vm_compute. done. Qed.

Lemma population_has_one_ttl_witness :
  header_set (queue_name (task "two-sum")) = true ∧
  form_slug (task "two-sum") = Some "two-sum" ∧
  check_cache_problem "two-sum" empty_world = false ∧
  (∃ d, one_problem "two-sum" = Ok d ∧
   ∃ jitter w',
     (-86400 ≤ jitter ≤ 86400)%Z ∧
     invalidate_cache one_problem (λ _, 7) (task "two-sum") empty_world
     = (Ok ("OK", 200), w') ∧
     log w' = log empty_world ++ UpstreamQuery "two-sum"
                :: writes "two-sum" d (86400 * 30 + jitter)).
Proof.
  split; [reflexivity|]. split; [reflexivity|]. split; [reflexivity|].
  eexists. split; [reflexivity|].
  destruct (population_has_one_ttl one_problem (λ _, 7) (task "two-sum") empty_world
              "two-sum" _ eq_refl eq_refl eq_refl eq_refl)
    as (jitter & w' & Hj & _ & Hw' & Hlog & _).
  exists jitter, w'. split; [exact Hj|]. split; [exact Hw'|exact Hlog].
Defined.

End WorkerFacts.

(** * Facts about [re.match] and the slug pattern *)

Module RegexFacts.

Lemma matches_nil_nullable r u : matches r u → u = [] → nullable r = true.
Proof.
  induction 1 as [|p c Hp|r1 r2 u H IH|r1 r2 u H IH|r1 r2 u v H1 IH1 H2 IH2|r|r u v H1 IH1 H2 IH2];
    intros Hu; simpl; try done.
  - by rewrite IH.
  - rewrite IH by done. by rewrite orb_true_r.
  - apply app_eq_nil in Hu as [-> ->]. by rewrite IH1, IH2.
Qed.

Lemma nullable_matches_nil r : nullable r = true → matches r [].
Proof.
  induction r as [| |p|r1 IH1 r2 IH2|r1 IH1 r2 IH2|r IH]; simpl; intros H; try done.
  - constructor.
  - apply orb_true_iff in H as [H|H]; [apply matches_alt_l|apply matches_alt_r]; auto.
  - apply andb_true_iff in H as [H1 H2].
    change (@nil ascii) with (@nil ascii ++ []). constructor; auto.
  - constructor.
Qed.

Lemma deriv_matches c r u : matches (deriv c r) u → matches r (c :: u).
Proof.
  revert u. induction r as [| |p|r1 IH1 r2 IH2|r1 IH1 r2 IH2|r IH]; simpl; intros u H.
  - inversion H.
  - inversion H.
  - destruct (p c) eqn:Hp; inversion H; subst. by constructor.
  - inversion H; subst; [apply matches_alt_l|apply matches_alt_r]; auto.
  - destruct (nullable r1) eqn:Hn.
    + inversion H as [| |? ? ? H'|? ? ? H'| | |]; subst.
      * inversion H' as [| | | |? ? u1 u2 Hu1 Hu2| |]; subst.
        change (c :: u1 ++ u2) with ((c :: u1) ++ u2). constructor; auto.
      * change (c :: u) with ([] ++ c :: u). constructor; [|auto].
        by apply nullable_matches_nil.
    + inversion H as [| | | |? ? u1 u2 Hu1 Hu2| |]; subst.
      change (c :: u1 ++ u2) with ((c :: u1) ++ u2). constructor; auto.
  - inversion H as [| | | |? ? u1 u2 Hu1 Hu2| |]; subst.
    change (c :: u1 ++ u2) with ((c :: u1) ++ u2). constructor; auto.
Qed.

Lemma matches_deriv c r w u : matches r w → w = c :: u → matches (deriv c r) u.
Proof.
  intros H. revert u.
  induction H as [|p c' Hp|r1 r2 w H IH|r1 r2 w H IH|r1 r2 w1 w2 H1 IH1 H2 IH2
                  |r|r w1 w2 H1 IH1 H2 IH2]; intros u Hw; simpl.
  - done.
  - injection Hw as -> <-. rewrite Hp. constructor.
  - apply matches_alt_l. auto.
  - apply matches_alt_r. auto.
  - destruct w1 as [|c1 w1]; simpl in Hw.
    + rewrite (matches_nil_nullable _ _ H1 eq_refl). apply matches_alt_r. auto.
    + injection Hw as -> <-.
      assert (matches (Seq (deriv c r1) r2) (w1 ++ w2)) by (constructor; auto).
      destruct (nullable r1); [by apply matches_alt_l|done].
  - done.
  - destruct w1 as [|c1 w1]; simpl in Hw.
    + by apply IH2.
    + injection Hw as -> <-. constructor; auto.
Qed.

(** [re.match] succeeds exactly when the pattern matches a prefix. *)
Lemma re_match_spec r s :
  re_match r s = true ↔
  ∃ u v, String.list_ascii_of_string s = u ++ v ∧ matches r u.
Proof.
  revert r. induction s as [|c s IH]; intros r; simpl.
  - rewrite orb_false_r. split.
    + intros H. exists [], []. split; [done|]. by apply nullable_matches_nil.
    + intros (u & v & Huv & H). symmetry in Huv. apply app_eq_nil in Huv as [-> ->].
      by eapply matches_nil_nullable.
  - rewrite orb_true_iff, IH. split.
    + intros [H|(u & v & Huv & H)].
      * exists [], (c :: String.list_ascii_of_string s). split; [done|].
        by apply nullable_matches_nil.
      * exists (c :: u), v. split; [by rewrite Huv|]. by apply deriv_matches.
    + intros (u & v & Huv & H). destruct u as [|c' u].
      * left. by eapply matches_nil_nullable.
      * right. simpl in Huv. injection Huv as <- Huv. exists u, v.
        split; [done|]. by eapply matches_deriv.
Qed.

Lemma matches_star_class p u :
  matches (Star (Class p)) u ↔ Forall (λ c, p c = true) u.
Proof.
  split.
  - intros H. remember (Star (Class p)) as r eqn:Hr.
    induction H as [| | | | |r|r w1 w2 H1 _ H2 IH2]; try done.
    injection Hr as ->. inversion H1; subst. simpl. constructor; auto.
  - induction 1 as [|c u Hc _ IH]; [constructor|].
    change (c :: u) with ([c] ++ u). constructor; [by constructor|done].
Qed.

Lemma matches_slug_pattern u :
  matches slug_pattern u ↔
  ∃ c mid d, u = c :: mid ++ [d] ∧ is_lower_alnum c = true ∧
             Forall (λ x, is_slug_char x = true) mid ∧ is_lower_alnum d = true.
Proof.
  unfold slug_pattern. split.
  - intros H. inversion H as [| | | |? ? u1 u2 Hc Hrest| |]; subst.
    inversion Hc; subst.
    inversion Hrest as [| | | |? ? u3 u4 Hmid Hd| |]; subst.
    inversion Hd; subst. apply matches_star_class in Hmid.
    by eexists _, _, _.
  - intros (c & mid & d & -> & Hc & Hmid & Hd).
    change (c :: mid ++ [d]) with ([c] ++ mid ++ [d]).
    constructor; [by constructor|].
    constructor; [by apply matches_star_class|by constructor].
Qed.

End RegexFacts.

(** * Facts about the form validator *)

Module FormFacts.
Import Default RegexFacts.

Lemma list_ascii_of_string_app (s t : string) :
  String.list_ascii_of_string (s +:+ t)
  = String.list_ascii_of_string s ++ String.list_ascii_of_string t.
Proof. induction s as [|c s IH]; simpl; [done|]. by rewrite IH. Qed.

(** X1: the slug check [re.match("[a-z0-9][a-z0-9-]*[a-z0-9]", slug)]
    accepts exactly the strings that begin with a lower-case letter or
    digit, go on with letters, digits and hyphens and reach a letter or
    digit; what follows that prefix is not looked at. *)
Theorem slug_pattern_accepts (s : string) :
  re_match slug_pattern s = true ↔
  ∃ c mid d rest,
    String.list_ascii_of_string s = c :: mid ++ d :: rest ∧
    is_lower_alnum c = true ∧
    Forall (λ x, is_slug_char x = true) mid ∧
    is_lower_alnum d = true.
Proof.
  rewrite re_match_spec. split.
  - intros (u & v & Hs & Hu). apply matches_slug_pattern in Hu
      as (c & mid & d & -> & Hc & Hmid & Hd).
    exists c, mid, d, v. split; [|done].
    rewrite Hs. simpl. by rewrite <-app_assoc.
  - intros (c & mid & d & rest & Hs & Hc & Hmid & Hd).
    exists (c :: mid ++ [d]), rest. split.
    + rewrite Hs. simpl. by rewrite <-app_assoc.
    + apply matches_slug_pattern. by eexists _, _, _.
Qed.

(** X2: [re.match] anchors the pattern at the start only: a string that
    is accepted stays accepted whatever is appended to it. *)
Theorem re_match_extends (r : regex) (s t : string) :
  re_match r s = true → re_match r (s +:+ t) = true.
Proof.
  rewrite !re_match_spec. intros (u & v & Hs & Hu).
  exists u, (v ++ String.list_ascii_of_string t). split; [|done].
  by rewrite list_ascii_of_string_app, Hs, <-app_assoc.
Qed.

Lemma validate_stat_spec (stat : json) :
  validate_stat stat = Fine () ↔ well_formed_stat stat.
Proof.
  unfold well_formed_stat. split.
  - destruct stat as [| | | | |fields]; try done.
    + unfold validate_stat. simpl. by destruct (String.index _ _ _).
    + unfold validate_stat. simpl. by destruct (existsb _ _).
    + unfold validate_stat. simpl.
      destruct (dict_get "stat" fields) as [question|] eqn:Hq; [|done]. simpl.
      destruct question as [| | |q|items|question]; try done.
      * simpl. by destruct (String.index _ _ _).
      * simpl. by destruct (existsb _ _).
      * simpl. destruct (dict_get "question__title_slug" question) as [slug|] eqn:Hs;
          [|done].
        simpl. destruct slug as [| | |s| |]; try done.
        destruct (re_match slug_pattern s) eqn:Hm; [|done].
        intros _. by eexists _, _, _.
  - intros (fields & question & s & -> & Hq & Hs & Hm).
    unfold validate_stat. simpl. rewrite Hq. simpl. rewrite Hs. simpl. by rewrite Hm.
Qed.

Lemma validate_stats_spec (stats : list json) :
  validate_stats stats = Fine () ↔ Forall well_formed_stat stats.
Proof.
  induction stats as [|stat stats IH]; simpl.
  - split; [constructor|done].
  - rewrite Forall_cons, <-IH, <-validate_stat_spec.
    destruct (validate_stat stat) as [[]|f]; simpl; naive_solver.
Qed.

(** X3: the validator lets the posted JSON through exactly when it is an
    object whose [stat_status_pairs] is a list of objects, each with an
    object under [stat] that has a string under [question__title_slug]
    which passes the slug check; the empty list passes. *)
Theorem validate_problems_accepts (data : json) :
  validate_problems data = Fine () ↔
  ∃ fields stats,
    data = JObject fields ∧
    dict_get "stat_status_pairs" fields = Some (JArray stats) ∧
    Forall well_formed_stat stats.
Proof.
  split.
  - destruct data as [| | | | |fields]; try done.
    + unfold validate_problems. simpl. by destruct (String.index _ _ _).
    + unfold validate_problems. simpl. by destruct (existsb _ _).
    + unfold validate_problems. simpl.
      destruct (dict_get "stat_status_pairs" fields) as [pairs|] eqn:Hp; [|done].
      simpl. destruct pairs as [| | | |stats|]; try done.
      intros H. apply validate_stats_spec in H. by exists fields, stats.
  - intros (fields & stats & -> & Hp & Hs).
    unfold validate_problems. simpl. rewrite Hp. simpl. by apply validate_stats_spec.
Qed.

Lemma existsb_is_string key (items : list json) :
  existsb (is_string key) items = true ↔ JString key ∈ items.
Proof.
  induction items as [|x items IH]; simpl.
  - split; [done|]. intros H. by apply elem_of_nil in H.
  - rewrite orb_true_iff, IH, elem_of_cons. split.
    + intros [H|H]; [|by right]. left. destruct x; try done.
      simpl in H. by apply bool_decide_eq_true in H as ->.
    + intros [<-|H]; [|by right]. left. simpl. by apply bool_decide_eq_true.
Qed.

(** X4: posted JSON that is not an object makes the validator stop with
    a [TypeError] instead of a validation error: [null], a boolean or a
    number is not iterable, and a list that holds the string
    [stat_status_pairs], or a string that contains it, passes the [in]
    test and cannot be indexed by a string. *)
Theorem validate_problems_type_error (data : json) :
  data = JNull ∨ (∃ b, data = JBool b) ∨ (∃ n, data = JNumber n) ∨
  (∃ items, data = JArray items ∧ JString "stat_status_pairs" ∈ items) ∨
  (∃ s n, data = JString s ∧ String.index 0 "stat_status_pairs" s = Some n) →
  validate_problems data = Fails TypeError.
Proof.
  intros [->|[[b ->]|[[n ->]|[(items & -> & Hin)|(s & n & -> & Hs)]]]]; try done.
  - apply existsb_is_string in Hin. unfold validate_problems. simpl. by rewrite Hin.
  - unfold validate_problems. simpl. by rewrite Hs.
Qed.

(** X5: the validator does not look at [status].  For an element it lets
    through, the comprehension of [interpret] gets the slug, a string
    that passes the slug check, and the solved flag when the element has
    a [status]; when it has none, [pair["status"]] raises [KeyError]. *)
Theorem validated_pair_status (stat : json) :
  validate_stat stat = Fine () →
  ∃ s, re_match slug_pattern s = true ∧
       match py_getitem "status" stat with
       | Fine status => comprehension_item stat = Fine (JString s, is_string "ac" status)
       | Fails f => f = LookupError ∧ comprehension_item stat = Fails LookupError
       end.
Proof.
  intros H. apply validate_stat_spec in H as (fields & question & s & -> & Hq & Hs & Hm).
  exists s. split; [done|]. unfold comprehension_item. simpl.
  rewrite Hq. simpl. rewrite Hs. simpl.
  by destruct (dict_get "status" fields).
Qed.

Lemma re_match_extends_witness :
  re_match slug_pattern "ab" = true ∧ re_match slug_pattern ("ab" +:+ "/../X") = true.
Proof.
  assert (re_match slug_pattern "ab" = true) as H by reflexivity.
  split; [exact H|]. exact (re_match_extends slug_pattern "ab" "/../X" H).
Defined.

Lemma validate_problems_type_error_witness :
  JString "stat_status_pairs" ∈ [JNumber 1; JString "stat_status_pairs"] ∧
  validate_problems (JArray [JNumber 1; JString "stat_status_pairs"]) = Fails TypeError.
Proof.
  assert (JString "stat_status_pairs" ∈ [JNumber 1; JString "stat_status_pairs"]) as H
    by (repeat constructor).
  split; [exact H|].
  apply validate_problems_type_error. right. right. right. left.
  eexists. split; [reflexivity|exact H].
Defined.

Lemma validated_pair_status_witness :
  validate_stat (JObject [ ("stat", JObject [ ("question__title_slug", JString "3sum") ]) ])
  = Fine () ∧
  comprehension_item
    (JObject [ ("stat", JObject [ ("question__title_slug", JString "3sum") ]) ])
  = Fails LookupError.
Proof.
  assert (validate_stat
            (JObject [ ("stat", JObject [ ("question__title_slug", JString "3sum") ]) ])
          = Fine ()) as H by reflexivity.
  split; [exact H|].
  destruct (validated_pair_status _ H) as (s & _ & Hc). exact (proj2 Hc).
Defined.

End FormFacts.

(** * More on the selection engine *)

Module DefaultMore.
Import Default DefaultFacts.

Section Narrowing.
Variable draws : nat → nat.
Variable round : Q → Q.

Lemma narrow_inv (st st' : selection) (item : string * TagInfo) :
  narrow draws round st item = Ok st' →
  to_solve_tasks st' = to_solve_tasks st ∩ left item.2 ∧
  (to_solve st' = to_solve st ∨ to_solve st' ∈ to_solve_tasks st').
Proof.
  unfold narrow.
  destruct (decide (to_solve_tasks st ∩ left item.2 = ∅)) as [He|Hne]; simpl.
  - destruct (ratio round item.2); [|done]. simpl. intros [= <-]. simpl. auto.
  - destruct (random_choice_elements draws _ (rng st) Hne) as (x & Hx & Hin).
    rewrite Hx. simpl. destruct (ratio round item.2); [|done]. simpl.
    intros [= <-]. simpl. auto.
Qed.

Lemma narrow_all_pool (items : list (string * TagInfo)) (st st' : selection) :
  narrow_all draws round st items = Ok st' →
  ∀ x, x ∈ to_solve_tasks st' ↔
       x ∈ to_solve_tasks st ∧ ∀ item, item ∈ items → x ∈ left item.2.
Proof.
  revert st. induction items as [|item items IH]; intros st H x; simpl in H.
  - injection H as <-. split; [|naive_solver].
    intros Hx. split; [done|]. intros item Hi. by apply elem_of_nil in Hi.
  - destruct (narrow draws round st item) as [st1|e] eqn:H1; [|done]. simpl in H.
    apply narrow_inv in H1 as [Hp _]. rewrite (IH _ H x), Hp, elem_of_intersection.
    split.
    + intros [[Hx Hl] Hrest]. split; [done|].
      intros it [->|Hi]%elem_of_cons; auto.
    + intros [Hx Hall]. split_and!; [done| |].
      * apply Hall. left.
      * intros it Hi. apply Hall. by right.
Qed.

(** The pick stays in a set that holds it and the pool. *)
Lemma narrow_all_pick (K : gset string) (items : list (string * TagInfo))
    (st st' : selection) :
  narrow_all draws round st items = Ok st' →
  to_solve st ∈ K → to_solve_tasks st ⊆ K → to_solve st' ∈ K.
Proof.
  revert st. induction items as [|item items IH]; intros st H Hpick Hpool; simpl in H.
  - by injection H as <-.
  - destruct (narrow draws round st item) as [st1|e] eqn:H1; [|done]. simpl in H.
    apply narrow_inv in H1 as [Hp Hk]. apply (IH st1 H).
    + destruct Hk as [->|Hk]; [done|]. set_solver.
    + set_solver.
Qed.
End Narrowing.

Section Unfolding.
Variable cache : string → result (option value).
Variable draws : nat → nat.
Variable round : Q → Q.

(** The steps of the selection for an input with at least one problem. *)
Lemma select_unfold (problems : list pair) (i : nat) :
  slug_to_solved_status problems ≠ [] →
  ∃ m pick ranked,
    build_tag_info_map cache (slug_to_solved_status problems) = Ok m ∧
    tracks (contributions cache (slug_to_solved_status problems)) m ∧
    random_choice draws (elements (candidate_pool (slug_to_solved_status problems))) i
    = Ok (pick, S i) ∧
    pick ∈ candidate_pool (slug_to_solved_status problems) ∧
    ranked ≡ₚ m ∧
    Forall (λ item, size (solved item.2) + size (left item.2) ≠ 0) ranked ∧
    select cache draws round problems i
    = narrow_all draws round
        {| to_solve_tasks := candidate_pool (slug_to_solved_status problems);
           to_solve := pick; tag_progress := []; rng := S i |} ranked.
Proof.
  intros Hne. unfold select.
  destruct (build_tag_info_map_spec cache (slug_to_solved_status problems))
    as (m & Hm & Ht).
  rewrite Hm. simpl.
  destruct (random_choice_elements draws _ i (candidate_pool_nonempty _ Hne))
    as (pick & Hpick & Hin).
  rewrite Hpick. simpl.
  assert (Forall (λ item : string * TagInfo,
                    size (solved item.2) + size (left item.2) ≠ 0) m) as Hsz.
  { apply Forall_forall. intros [tag info] Hi. simpl. by eapply tracks_size. }
  destruct (sorted_spec (λ x : string * TagInfo, ratio_of round x.2)
              (λ x : string * TagInfo, ratio round x.2) m)
    as (ranked & Hranked & Hperm & _).
  { intros a Ha. apply ratio_Ok. rewrite Forall_forall in Hsz. by apply Hsz. }
  rewrite Hranked. simpl.
  exists m, pick, ranked. split_and!; try done. by rewrite Hperm.
Qed.

End Unfolding.

Lemma dict_of_list_NoDup {V} (kvs : list (string * V)) :
  NoDup kvs.*1 → dict_of_list kvs = kvs.
Proof.
  unfold dict_of_list.
  assert (∀ d, NoDup (d ++ kvs).*1 →
               foldl (λ d kv, dict_set kv.1 kv.2 d) d kvs = d ++ kvs) as H.
  { induction kvs as [|[k v] kvs IH]; intros d Hnd; csimpl.
    - by rewrite app_nil_r.
    - rewrite cons_middle, app_assoc in Hnd. rewrite cons_middle, app_assoc.
      rewrite <-(IH _ Hnd). f_equal.
      rewrite fmap_app in Hnd. apply NoDup_app in Hnd as [Hd _].
      rewrite fmap_app in Hd. apply NoDup_app in Hd as (_ & Hk & _).
      clear -Hk. induction d as [|[k' v'] d IH]; csimpl; [done|].
      rewrite decide_False.
      + f_equal. apply IH. intros x Hx. apply Hk. by right.
      + intros <-. apply (Hk k); [left|]. csimpl. left.
  }
  intros Hnd. by apply (H []).
Qed.

Lemma mapM_Ok_inv {A B} (g : A → result B) (l : list A) (ys : list B) :
  mapM g l = Ok ys → Forall2 (λ x y, g x = Ok y) l ys.
Proof.
  revert ys. induction l as [|x l IH]; intros ys.
  - intros [= <-]. constructor.
  - rewrite mapM_result_cons. destruct (g x) as [y|e] eqn:Hx; [|done]. simpl.
    destruct (mapM g l) as [ys'|e]; [|done]. simpl. intros [= <-].
    constructor; auto.
Qed.

Lemma mapM_Raise_inv {A B} (g : A → result B) (l : list A) (e : exn) :
  mapM g l = Raise e → ∃ x, x ∈ l ∧ g x = Raise e.
Proof.
  induction l as [|x l IH]; [done|].
  rewrite mapM_result_cons. destruct (g x) as [y|e'] eqn:Hx; simpl.
  - destruct (mapM g l) as [ys'|e']; [done|]. simpl. intros [= ->].
    destruct IH as (x' & Hx' & Hg); [done|]. exists x'. split; [by right|done].
  - intros [= ->]. exists x. split; [left|done].
Qed.

(** ** The reading of the posted JSON *)

Lemma mapM_checked_cons {A B} (g : A → checked B) (x : A) (l : list A) :
  mapM g (x :: l) = y ← g x; ys ← mapM g l; Fine (y :: ys).
Proof. done. Qed.

Lemma validate_problems_inv (data : json) :
  validate_problems data = Fine () →
  ∃ fields stats,
    data = JObject fields ∧
    dict_get "stat_status_pairs" fields = Some (JArray stats) ∧
    Forall well_formed_stat stats.
Proof.
  destruct data as [| | | | |fields]; try done.
  - unfold validate_problems. simpl. by destruct (String.index _ _ _).
  - unfold validate_problems. simpl. by destruct (existsb _ _).
  - unfold validate_problems. simpl.
    destruct (dict_get "stat_status_pairs" fields) as [pairs|] eqn:Hp; [|done].
    simpl. destruct pairs as [| | | |stats|]; try done.
    intros H. apply FormFacts.validate_stats_spec in H. by exists fields, stats.
Qed.

(** What the comprehension and the test ["status" in stat] give for an
    element that the validator lets through. *)
Lemma well_formed_stat_read (stat : json) :
  well_formed_stat stat →
  ∃ fields s,
    stat = JObject fields ∧
    py_in "status" stat = Fine (is_not_None (dict_get "status" fields)) ∧
    comprehension_item stat
    = match dict_get "status" fields with
      | Some st => Fine (JString s, is_string "ac" st)
      | None => Fails LookupError
      end.
Proof.
  intros (fields & question & s & -> & Hq & Hs & _). exists fields, s.
  split_and!; [done|done|]. unfold comprehension_item. simpl.
  rewrite Hq. simpl. rewrite Hs. simpl. by destruct (dict_get "status" fields).
Qed.

Lemma comprehension_missing_status (stats : list json) :
  Forall well_formed_stat stats →
  (∃ stat, stat ∈ stats ∧ py_in "status" stat = Fine false) →
  mapM comprehension_item stats = Fails LookupError.
Proof.
  induction 1 as [|stat stats Hwf _ IH]; intros (x & Hin & Hx).
  - by apply elem_of_nil in Hin.
  - rewrite mapM_checked_cons.
    destruct (well_formed_stat_read stat Hwf) as (fields & s & -> & Hp & ->).
    destruct (dict_get "status" fields) as [st|] eqn:Hst; [|done]. simpl.
    apply elem_of_cons in Hin as [->|Hin].
    + rewrite Hp in Hx. done.
    + rewrite IH; [done|]. by exists x.
Qed.

Lemma comprehension_reads_pairs (stats : list json) :
  Forall well_formed_stat stats →
  (∀ stat, stat ∈ stats → py_in "status" stat = Fine true) →
  ∃ problems : list pair,
    Forall2 (λ stat p, comprehension_item stat
                       = Fine (JString (question__title_slug p),
                               bool_decide (status p = Some "ac"))) stats problems ∧
    ∃ items, mapM comprehension_item stats = Fine items ∧
             mapM pair_of_item items = Some problems.
Proof.
  induction 1 as [|stat stats Hwf _ IH]; intros Hall.
  - exists []. split; [constructor|]. by exists [].
  - destruct IH as (problems & Hf & items & Hitems & Hty);
      [intros x Hx; apply Hall; by right|].
    destruct (well_formed_stat_read stat Hwf) as (fields & s & -> & Hp & Hc).
    pose proof (Hall (JObject fields) ltac:(left)) as Hs. rewrite Hp in Hs.
    destruct (dict_get "status" fields) as [st|] eqn:Hst; [|done].
    exists ({| question__title_slug := s;
               status := if is_string "ac" st then Some "ac" else None |} :: problems).
    assert (bool_decide ((if is_string "ac" st then Some "ac" else None) = Some "ac")
            = is_string "ac" st) as Hb by (by destruct (is_string "ac" st)).
    split.
    + constructor; [|done]. simpl. by rewrite Hb.
    + exists ((JString s, is_string "ac" st) :: items). split.
      * rewrite mapM_checked_cons, Hc, Hitems. done.
      * simpl. by rewrite Hty.
Qed.

Section More.
Variable cache : string → result (option value).
Variable draws : nat → nat.
Variable round : Q → Q.

(** X6: when the selection returns, its candidate pool holds exactly the
    input slugs that are in the left set of every tag of the aggregation
    map: the turns of the loop compose to one intersection, whatever the
    order of the tags. *)
Theorem final_pool_is_intersection (problems : list pair) (i : nat) (st : selection) :
  select cache draws round problems i = Ok st →
  ∃ m, build_tag_info_map cache (slug_to_solved_status problems) = Ok m ∧
       ∀ x, x ∈ to_solve_tasks st ↔
            x ∈ dict_keys (slug_to_solved_status problems) ∧
            ∀ tag info, (tag, info) ∈ m → x ∈ left info.
Proof.
  intros Hst.
  destruct (decide (slug_to_solved_status problems = [])) as [He|Hne].
  { by rewrite (select_empty cache draws round _ i He) in Hst. }
  destruct (select_unfold cache draws round problems i Hne)
    as (m & pick & ranked & Hm & _ & _ & _ & Hperm & _ & Hsel).
  rewrite Hsel in Hst. exists m. split; [done|]. intros x.
  rewrite (narrow_all_pool draws round _ _ _ Hst x). simpl.
  unfold candidate_pool. rewrite elem_of_list_to_set.
  split; intros [Hx Hall]; (split; [done|]).
  - intros tag info Hin. rewrite <-Hperm in Hin. by apply (Hall (tag, info)).
  - intros [tag info] Hin. rewrite Hperm in Hin. by apply (Hall tag info).
Qed.

(** X7: when the tag listed first in the progress table, one of lowest
    ratio, has an unsolved problem, the recommended slug is one of the
    unsolved problems of that tag. *)
Theorem pick_from_first_tag (problems : list pair) (i : nat) (st : selection)
    (m : list (string * TagInfo)) (name : string) (q : Q) (rest : list (string * Q))
    (info : TagInfo) :
  select cache draws round problems i = Ok st →
  build_tag_info_map cache (slug_to_solved_status problems) = Ok m →
  tag_progress st = (name, q) :: rest →
  (name, info) ∈ m →
  left info ≠ ∅ →
  to_solve st ∈ left info ∧
  dict_get (to_solve st) (slug_to_solved_status problems) = Some false.
Proof.
  intros Hst Hm Hprog Hin Hleft.
  destruct (decide (slug_to_solved_status problems = [])) as [He|Hne].
  { by rewrite (select_empty cache draws round _ i He) in Hst. }
  destruct (select_unfold cache draws round problems i Hne)
    as (m' & pick & ranked & Hm' & Ht & _ & Hpick & Hperm & Hsz & Hsel).
  assert (m' = m) as -> by congruence.
  pose proof Ht as [Hnd _].
  rewrite Hsel in Hst.
  set (st0 := {| to_solve_tasks := candidate_pool (slug_to_solved_status problems);
                 to_solve := pick; tag_progress := []; rng := S i |}) in *.
  destruct (narrow_all_spec draws round (candidate_pool (slug_to_solved_status problems))
              ranked st0 Hsz)
    as (st' & Hst' & _ & _ & Hprog'); simpl.
  { rewrite Hperm. apply Hnd. }
  { intros ? _. apply not_elem_of_nil. }
  { done. }
  { done. }
  assert (st' = st) as -> by congruence. simpl in Hprog'.
  destruct ranked as [|[name' info'] ranked]; [by rewrite Hprog in Hprog'|].
  rewrite Hprog in Hprog'. injection Hprog' as -> _ _.
  assert (info' = info) as ->.
  { assert ((name', info') ∈ m) as Hin' by (rewrite <-Hperm; left).
    apply (elem_of_dict_get _ _ _ Hnd) in Hin, Hin'. congruence. }
  destruct (tracks_entry _ _ _ _ Ht Hin) as [_ Hsets].
  assert (∀ x, x ∈ left info → (x, false) ∈ slug_to_solved_status problems) as Hunsolved.
  { intros x Hx. apply Hsets, elem_of_contributions in Hx. tauto. }
  apply Forall_cons in Hsz as [Hsz1 Hszs]. simpl in Hst.
  destruct (narrow_spec draws round st0 (name', info) Hsz1)
    as (st1 & Hst1 & Hp1 & _ & _ & Hnem).
  rewrite Hst1 in Hst. simpl in Hst, Hp1.
  assert (to_solve_tasks st1 = left info) as Hpool1.
  { rewrite Hp1. apply set_eq. intros x. rewrite elem_of_intersection.
    split; [tauto|]. intros Hx. split; [|done].
    unfold candidate_pool. apply elem_of_list_to_set.
    apply list_elem_of_fmap. exists (x, false). split; [done|]. by apply Hunsolved. }
  assert (to_solve st ∈ left info) as Hres.
  { apply (narrow_all_pick draws round (left info) ranked st1 st Hst).
    - rewrite <-Hpool1. apply Hnem. by rewrite Hpool1.
    - by rewrite Hpool1. }
  split; [done|].
  apply elem_of_dict_get; [apply NoDup_slug_to_solved_status|by apply Hunsolved].
Qed.

(** X8: when no input slug has a cached tag, the selection narrows
    nothing: the progress table is empty, the pool is the whole input
    and the pick is the first and only draw. *)
Theorem no_tags_no_narrowing (problems : list pair) (i : nat) :
  slug_to_solved_status problems ≠ [] →
  (∀ x, x ∈ dict_keys (slug_to_solved_status problems) → cached_tags cache x = []) →
  ∃ pick,
    random_choice draws (elements (candidate_pool (slug_to_solved_status problems))) i
    = Ok (pick, S i) ∧
    select cache draws round problems i
    = Ok {| to_solve_tasks := candidate_pool (slug_to_solved_status problems);
            to_solve := pick; tag_progress := []; rng := S i |}.
Proof.
  intros Hne Hnone.
  destruct (select_unfold cache draws round problems i Hne)
    as (m & pick & ranked & Hm & [_ Ht] & Hpick & _ & Hperm & _ & Hsel).
  exists pick. split; [done|]. rewrite Hsel.
  assert (m = []) as ->.
  { destruct m as [|[tag info] m]; [done|]. exfalso.
    specialize (Ht tag). simpl in Ht. rewrite decide_True in Ht by done.
    destruct Ht as [(x & b & Hx) _]. apply elem_of_contributions in Hx as [Hx Htag].
    rewrite Hnone in Htag; [by apply elem_of_nil in Htag|].
    apply list_elem_of_fmap. by exists (x, b). }
  by apply Permutation_nil_r in Hperm as ->.
Qed.

(** On the pairs that the comprehension has read, [interpret] raises
    [IndexError] when there is no pair, and otherwise the exception of
    the cache when the read of the title of the pick, or of the name of
    a listed tag, raises. *)
Lemma interpret_raises_inv (problems : list pair) (i : nat) (e : exn) :
  interpret cache draws round problems i = Raise e →
  (slug_to_solved_status problems = [] ∧ e = IndexError) ∨
  ∃ st, select cache draws round problems i = Ok st ∧
        (cache (problem_title_key (to_solve st)) = Raise e ∨
         ∃ tag, tag ∈ dict_keys (tag_progress st) ∧ cache (tag_name_key tag) = Raise e).
Proof.
  intros H.
  destruct (decide (slug_to_solved_status problems = [])) as [He|Hne].
  { left. split; [done|]. unfold interpret in H.
    rewrite (select_empty cache draws round _ i He) in H. simpl in H. congruence. }
  right.
  destruct (select_spec cache draws round problems i Hne)
    as (_ & _ & st & _ & _ & _ & Hst & _).
  exists st. split; [done|]. unfold interpret in H. rewrite Hst in H. simpl in H.
  unfold resolve in H.
  destruct (cache (problem_title_key (to_solve st))) as [x|e'] eqn:Ht; simpl in H.
  - right. destruct (mapM _ (tag_progress st)) as [names|e'] eqn:Hn; simpl in H; [done|].
    injection H as ->.
    apply mapM_Raise_inv in Hn as ([tag q] & Hin & Hr). simpl in Hr.
    exists tag. split; [apply list_elem_of_fmap; by exists (tag, q)|].
    destruct (cache (tag_name_key tag)); simpl in Hr; [done|congruence].
  - left. congruence.
Qed.

(** X9: on a history that the validator has accepted, [interpret] fails
    in three ways only.  When an element of [stat_status_pairs] has no
    [status], which the validator does not look at, the comprehension
    raises [KeyError] before anything else is done.  When every element
    has one, the comprehension reads a pair from each, and the rest of
    the function raises [IndexError] when the list is empty, and
    otherwise the exception of the cache when the read of the title of
    the pick, or of the name of a listed tag, raises; it raises no
    [TypeError] and no [ZeroDivisionError]. *)
Theorem interpret_failures (data : json) (i : nat) :
  validate_problems data = Fine () →
  ∃ stats,
    py_getitem "stat_status_pairs" data = Fine (JArray stats) ∧
    ((∃ stat, stat ∈ stats ∧ py_in "status" stat = Fine false) →
     interpret_json cache draws round data i = Fails LookupError) ∧
    ((∀ stat, stat ∈ stats → py_in "status" stat = Fine true) →
     ∃ problems,
       Forall2 (λ stat p, comprehension_item stat
                          = Fine (JString (question__title_slug p),
                                  bool_decide (status p = Some "ac"))) stats problems ∧
       interpret_json cache draws round data i
       = Fine (Some (interpret cache draws round problems i)) ∧
       ∀ e, interpret cache draws round problems i = Raise e →
            (stats = [] ∧ e = IndexError) ∨
            ∃ st, select cache draws round problems i = Ok st ∧
                  (cache (problem_title_key (to_solve st)) = Raise e ∨
                   ∃ tag, tag ∈ dict_keys (tag_progress st) ∧
                          cache (tag_name_key tag) = Raise e)).
Proof.
  intros H. apply validate_problems_inv in H as (fields & stats & -> & Hp & Hwf).
  exists stats. unfold interpret_json. simpl. rewrite Hp. simpl. split_and!; [done| |].
  - intros Hmiss. by rewrite (comprehension_missing_status stats Hwf Hmiss).
  - intros Hall.
    destruct (comprehension_reads_pairs stats Hwf Hall)
      as (problems & Hf & items & -> & Hty).
    exists problems. split_and!; [done| |].
    + simpl. by rewrite Hty.
    + intros e He. destruct (interpret_raises_inv problems i e He) as [[Hnil ->]|Hst].
      * left. split; [|done].
        apply dict_of_list_nil_inv, fmap_nil_inv in Hnil as ->.
        by apply Forall2_nil_inv_r in Hf.
      * by right.
Qed.

(** X10: on the page that [interpret] returns, the display name of the
    pick is what the cache holds under its title key, or the slug itself
    when the cache holds nothing or an empty value there; the names of
    the tags are listed for the tags of the progress table, in its
    order, each the cached name of the tag or, likewise, its slug. *)
Theorem names_fall_back_to_slugs (problems : list pair) (i : nat) (c : context) (code : nat) :
  interpret cache draws round problems i = Ok (interpret_html c, code) →
  (∃ x, cache (problem_title_key (ctx_to_solve c)) = Ok x ∧
        ctx_to_solve_name c = or_else x (VText (ctx_to_solve c))) ∧
  dict_keys (ctx_tag_to_name c) = dict_keys (ctx_tag_progress c) ∧
  ∀ tag, tag ∈ dict_keys (ctx_tag_progress c) →
         ∃ x, cache (tag_name_key tag) = Ok x ∧
              dict_get tag (ctx_tag_to_name c) = Some (or_else x (VText tag)).
Proof.
  intros H.
  destruct (decide (slug_to_solved_status problems = [])) as [He|Hne].
  { unfold interpret in H. by rewrite (select_empty cache draws round _ i He) in H. }
  destruct (select_spec cache draws round problems i Hne)
    as (m & ranked & st & Hm & Hperm & _ & Hst & _ & _ & Hprog).
  destruct (build_tag_info_map_spec cache (slug_to_solved_status problems))
    as (m' & Hm' & [Hnd _]).
  assert (m' = m) as -> by congruence.
  assert (NoDup (dict_keys (tag_progress st))) as Hkeys.
  { unfold dict_keys. rewrite Hprog, <-list_fmap_compose.
    change (NoDup (ranked.*1)). by rewrite Hperm. }
  unfold interpret in H. rewrite Hst in H. simpl in H.
  unfold resolve in H.
  destruct (cache (problem_title_key (to_solve st))) as [x|e'] eqn:Ht; simpl in H; [|done].
  destruct (mapM _ (tag_progress st)) as [names|e'] eqn:Hn; simpl in H; [|done].
  injection H as <- <-. simpl.
  apply mapM_Ok_inv in Hn.
  assert (length names = length (tag_progress st)) as Hlen
    by (symmetry; by eapply Forall2_length).
  assert ((zip (dict_keys (tag_progress st)) names).*1 = dict_keys (tag_progress st))
    as Hfst.
  { apply fst_zip. unfold dict_keys. rewrite length_fmap. lia. }
  rewrite dict_of_list_NoDup by (by rewrite Hfst).
  split_and!; [by exists x|done|].
  clear -Hn. unfold dict_keys.
  induction Hn as [|[tag q] y l ys Hy _ IH]; intros t Ht; csimpl in *.
  - by apply elem_of_nil in Ht.
  - destruct (decide (t = tag)) as [->|Hne].
    + simpl in Hy. destruct (cache (tag_name_key tag)) as [x|]; [|done].
      simpl in Hy. injection Hy as <-. by exists x.
    + apply elem_of_cons in Ht as [?|Ht]; [done|]. by apply IH.
Qed.

(** X11: in the progress table a tag none of whose problems is solved is
    listed with 0 and a tag all of whose problems are solved with 100,
    for any rounding that keeps the order and leaves 0, 1 and 100 as
    they are. *)
Theorem progress_extremes (problems : list pair) (i : nat) (st : selection)
    (m : list (string * TagInfo)) (tag : string) (info : TagInfo) :
  rounding round →
  select cache draws round problems i = Ok st →
  build_tag_info_map cache (slug_to_solved_status problems) = Ok m →
  (tag, info) ∈ m →
  ∃ q, dict_get tag (tag_progress st) = Some q ∧
       (solved info = ∅ → (q == 0)%Q) ∧
       (left info = ∅ → (q == 100)%Q).
Proof.
  intros Hr Hst Hm Hin.
  destruct (decide (slug_to_solved_status problems = [])) as [He|Hne].
  { by rewrite (select_empty cache draws round _ i He) in Hst. }
  destruct (select_spec cache draws round problems i Hne)
    as (m' & ranked & st' & Hm' & Hperm & _ & Hst' & _ & _ & Hprog).
  assert (m' = m) as -> by congruence. assert (st' = st) as -> by congruence.
  destruct (build_tag_info_map_spec cache (slug_to_solved_status problems))
    as (m' & Hm'' & Ht).
  assert (m' = m) as -> by congruence.
  pose proof Ht as [Hnd _]. pose proof (tracks_size _ _ _ _ Ht Hin) as Hsz.
  assert (∀ x y, (x == y)%Q → (round x == round y)%Q) as Hext.
  { intros x y Hxy. apply Qle_antisym; apply (round_mono _ Hr); rewrite Hxy; apply Qle_refl. }
  exists (round (ratio_of round info * 100)%Q). split_and!.
  - apply elem_of_dict_get.
    + unfold dict_keys. rewrite Hprog, <-list_fmap_compose.
      change (NoDup (ranked.*1)). by rewrite Hperm.
    + rewrite Hprog. apply list_elem_of_fmap. exists (tag, info).
      split; [done|]. by rewrite Hperm.
  - intros Hs. unfold ratio_of. rewrite Hs, size_empty. simpl.
    apply Qeq_trans with (round 0); [|apply (round_0 _ Hr)]. apply Hext.
    assert (round (0 # Pos.of_nat (size (left info))) == 0)%Q as ->; [|done].
    apply Qeq_trans with (round 0); [|apply (round_0 _ Hr)]. by apply Hext.
  - intros Hl. unfold ratio_of. rewrite Hl, size_empty in *. rewrite Nat.add_0_r in *.
    apply Qeq_trans with (round 100); [|apply (round_100 _ Hr)]. apply Hext.
    assert (round (Z.of_nat (size (solved info)) # Pos.of_nat (size (solved info))) == 1)%Q
      as ->; [|done].
    apply Qeq_trans with (round 1); [|apply (round_1 _ Hr)]. apply Hext.
    unfold Qeq. simpl.
    assert (Z.pos (Pos.of_nat (size (solved info))) = Z.of_nat (size (solved info))) as ->.
    { rewrite <-positive_nat_Z. by rewrite Nat2Pos.id. }
    lia.
Qed.
End More.

(** ** These properties on the scenario of the specification *)

Lemma scenario_select :
  select scenario_cache (λ _, 0) (λ q, q) scenario_input 0
  = Ok {| to_solve_tasks := ∅; to_solve := "a";
          tag_progress := [("dp", 100 # 2); ("greedy", 100 # 1)]; rng := 2 |}.
Proof. vm_compute. reflexivity. Defined.

Lemma scenario_build :
  build_tag_info_map scenario_cache (slug_to_solved_status scenario_input)
  = Ok scenario_tag_info_map.
Proof. vm_compute. reflexivity. Defined.

Lemma final_pool_is_intersection_witness :
  select scenario_cache (λ _, 0) (λ q, q) scenario_input 0
  = Ok {| to_solve_tasks := ∅; to_solve := "a";
          tag_progress := [("dp", 100 # 2); ("greedy", 100 # 1)]; rng := 2 |} ∧
  ∃ m, build_tag_info_map scenario_cache (slug_to_solved_status scenario_input) = Ok m ∧
       ∀ x, x ∈ (∅ : gset string) ↔
            x ∈ dict_keys (slug_to_solved_status scenario_input) ∧
            ∀ tag info, (tag, info) ∈ m → x ∈ left info.
Proof.
  split; [exact scenario_select|].
  exact (final_pool_is_intersection scenario_cache (λ _, 0) (λ q, q) scenario_input 0 _
           scenario_select).
Defined.

Lemma pick_from_first_tag_witness :
  ("dp", {| solved := {["b"]}; left := {["a"]} |}) ∈ scenario_tag_info_map ∧
  ({["a"]} : gset string) ≠ ∅ ∧
  "a" ∈ ({["a"]} : gset string) ∧
  dict_get "a" (slug_to_solved_status scenario_input) = Some false.
Proof.
  assert (("dp", {| solved := {["b"]}; left := {["a"]} |}) ∈ scenario_tag_info_map) as Hin
    by (unfold scenario_tag_info_map; constructor).
  assert (({["a"]} : gset string) ≠ ∅) as Hne by (vm_compute; discriminate).
  split; [exact Hin|]. split; [exact Hne|].
  exact (pick_from_first_tag scenario_cache (λ _, 0) (λ q, q) scenario_input 0 _ _
           "dp" (100 # 2) [("greedy", 100 # 1)] _
           scenario_select scenario_build eq_refl Hin Hne).
Defined.

Lemma no_tags_no_narrowing_witness :
  slug_to_solved_status scenario_input ≠ [] ∧
  ∃ pick,
    select (λ _, Ok None) (λ _, 0) (λ q, q) scenario_input 0
    = Ok {| to_solve_tasks := candidate_pool (slug_to_solved_status scenario_input);
            to_solve := pick; tag_progress := []; rng := 1 |}.
Proof.
  assert (slug_to_solved_status scenario_input ≠ []) as H by (vm_compute; discriminate).
  split; [exact H|].
  destruct (no_tags_no_narrowing (λ _, Ok None) (λ _, 0) (λ q, q) scenario_input 0 H)
    as (pick & _ & Hsel); [intros x _; reflexivity|].
  exists pick. exact Hsel.
Defined.

Lemma interpret_failures_witness :
  (validate_problems two_pairs = Fine () ∧
   interpret_json scenario_cache (λ _, 0) (λ q, q) two_pairs 0 = Fails LookupError) ∧
  (validate_problems full_pairs = Fine () ∧
   ∃ problems,
     interpret_json scenario_cache (λ _, 0) (λ q, q) full_pairs 0
     = Fine (Some (interpret scenario_cache (λ _, 0) (λ q, q) problems 0))).
Proof.
  split.
  - assert (validate_problems two_pairs = Fine ()) as H by reflexivity.
    split; [exact H|].
    destruct (interpret_failures scenario_cache (λ _, 0) (λ q, q) two_pairs 0 H)
      as (stats & Hs & Hmiss & _).
    apply Hmiss. injection Hs as <-.
    exists (JObject [ ("stat", JObject [ ("question__title_slug", JString "3sum") ]) ]).
    split; [by right; left|reflexivity].
  - assert (validate_problems full_pairs = Fine ()) as H by reflexivity.
    split; [exact H|].
    destruct (interpret_failures scenario_cache (λ _, 0) (λ q, q) full_pairs 0 H)
      as (stats & Hs & _ & Hall).
    destruct Hall as (problems & _ & Hi & _).
    + injection Hs as <-. intros stat Hin.
      apply elem_of_cons in Hin as [->|Hin]; [reflexivity|].
      apply elem_of_cons in Hin as [->|Hin]; [reflexivity|].
      by apply elem_of_nil in Hin.
    + exists problems. exact Hi.
Defined.

Lemma names_fall_back_to_slugs_witness :
  ∃ c, interpret scenario_cache (λ _, 0) (λ q, q) scenario_input 0
       = Ok (interpret_html c, 200) ∧
       dict_keys (ctx_tag_to_name c) = dict_keys (ctx_tag_progress c).
Proof.
  eexists. split; [vm_compute; reflexivity|].
  refine (proj1 (proj2 (names_fall_back_to_slugs scenario_cache (λ _, 0) (λ q, q)
                          scenario_input 0 _ 200 _))).
  vm_compute. reflexivity.
Defined.

Lemma progress_extremes_witness :
  ("greedy", {| solved := {["b"]}; left := ∅ |}) ∈ scenario_tag_info_map ∧
  ∃ q, dict_get "greedy" [("dp", 100 # 2); ("greedy", 100 # 1)] = Some q ∧
       (({["b"]} : gset string) = ∅ → (q == 0)%Q) ∧
       ((∅ : gset string) = ∅ → (q == 100)%Q).
Proof.
  assert (("greedy", {| solved := {["b"]}; left := ∅ |}) ∈ scenario_tag_info_map) as Hin
    by (unfold scenario_tag_info_map; repeat constructor).
  split; [exact Hin|].
  exact (progress_extremes scenario_cache (λ _, 0) (λ q, q) scenario_input 0 _ _ _ _
           exact_rounding scenario_select scenario_build Hin).
Defined.

End DefaultMore.

(** * More on the population worker and the scheduler *)

Module WorkerMore.
Import Worker WorkerFacts.

(** ** The cache keys do not collide *)

Lemma list_ascii_of_app (s t : string) :
  String.list_ascii_of_string (s +:+ t)
  = String.list_ascii_of_string s ++ String.list_ascii_of_string t.
Proof. induction s as [|c s IH]; simpl; [done|]. by rewrite IH. Qed.

Lemma string_length_app (s t : string) :
  String.length (s +:+ t) = String.length s + String.length t.
Proof. induction s as [|c s IH]; simpl; [done|]. by rewrite IH. Qed.

Lemma string_app_inj_r (a b t : string) : a +:+ t = b +:+ t → a = b.
Proof.
  intros H. apply (f_equal String.list_ascii_of_string) in H.
  rewrite !list_ascii_of_app in H. apply app_inj_2 in H as [H _]; [|done].
  apply (f_equal String.string_of_list_ascii) in H.
  by rewrite !String.string_of_list_ascii_of_string in H.
Qed.

Lemma string_suffix_neq (a b t u : string) :
  String.length t = String.length u → t ≠ u → a +:+ t ≠ b +:+ u.
Proof.
  intros Hlen Hne H. apply Hne.
  apply (f_equal String.list_ascii_of_string) in H.
  rewrite !list_ascii_of_app in H. apply app_inj_2 in H as [_ H].
  - apply (f_equal String.string_of_list_ascii) in H.
    by rewrite !String.string_of_list_ascii_of_string in H.
  - clear -Hlen. revert u Hlen.
    induction t as [|c t IH]; intros [|c' u]; simpl; try done.
    intros [= Hlen]. f_equal. by apply IH.
Qed.

Lemma tag_name_key_inj (a b : string) : tag_name_key a = tag_name_key b → a = b.
Proof.
  unfold tag_name_key. intros H. apply (inj (String.app "tag_")) in H.
  by apply string_app_inj_r in H.
Qed.

Lemma tags_key_ne_problem_tags_key (s : string) : problem_tags_key s ≠ tags_key s.
Proof.
  unfold tags_key, problem_tags_key. intros H.
  apply (f_equal String.length) in H. rewrite !string_length_app in H. simpl in H. lia.
Qed.

Lemma title_key_ne_tags_key (s : string) : problem_title_key s ≠ tags_key s.
Proof.
  unfold tags_key, problem_title_key. intros H.
  apply (f_equal String.length) in H. rewrite !string_length_app in H. simpl in H. lia.
Qed.

Lemma title_key_ne_problem_tags_key (s : string) : problem_title_key s ≠ problem_tags_key s.
Proof.
  unfold problem_tags_key, problem_title_key. intros H.
  apply (f_equal String.length) in H. rewrite !string_length_app in H. simpl in H. lia.
Qed.

Lemma tag_name_key_ne_tags_key (t s : string) : tags_key s ≠ tag_name_key t.
Proof.
  unfold tags_key, tag_name_key.
  change ("tag_" +:+ t +:+ "_name") with (("tag_" +:+ t) +:+ "_name").
  by apply string_suffix_neq.
Qed.

Lemma tag_name_key_ne_problem_key (t s : string) :
  problem_tags_key s ≠ tag_name_key t ∧ problem_title_key s ≠ tag_name_key t.
Proof.
  unfold problem_tags_key, problem_title_key, tag_name_key.
  split; intros H; apply (f_equal (String.get 0)) in H; vm_compute in H; done.
Qed.

(** ** What a population leaves in the store *)

Lemma cache_set_other (key key' : string) (v : value) (time : Z) (w : world) :
  key' ≠ key → store (cache_set key' v time w) !! key = store w !! key.
Proof.
  intros Hne. unfold cache_set. simpl. destruct (decide (time ≤ 2592000)%Z).
  - by rewrite lookup_insert_ne.
  - by rewrite lookup_delete_ne.
Qed.

Lemma names_foldl_other (time : Z) (tags : list tag) (w : world) (key : string) :
  key ∉ (λ t, tag_name_key (slug t)) <$> tags →
  store (foldl (λ w t, cache_set (tag_name_key (slug t)) (VText (name t)) time w) w tags)
    !! key
  = store w !! key.
Proof.
  revert w. induction tags as [|t tags IH]; intros w Hkey; csimpl in *; [done|].
  apply not_elem_of_cons in Hkey as [Hne Hkey].
  rewrite IH by done. by apply cache_set_other.
Qed.

(** With a time above 30 days, no key that is written holds anything
    afterwards. *)
Lemma names_foldl_expired (time : Z) (tags : list tag) (w : world) (key : string) :
  (2592000 < time)%Z →
  key ∈ (λ t, tag_name_key (slug t)) <$> tags ∨ store w !! key = None →
  store (foldl (λ w t, cache_set (tag_name_key (slug t)) (VText (name t)) time w) w tags)
    !! key
  = None.
Proof.
  intros Htime. revert w. induction tags as [|t tags IH]; intros w Hkey; csimpl in *.
  - destruct Hkey as [Hkey|Hkey]; [by apply elem_of_nil in Hkey|done].
  - apply IH. destruct Hkey as [[->|Hkey]%elem_of_cons|Hkey].
    + right. apply cache_set_expired; auto.
    + by left.
    + right. apply cache_set_expired; auto.
Qed.

Lemma populated_expired (s : string) (d : detail) (time : Z) (w : world) (key : string) :
  (2592000 < time)%Z →
  key ∈ written_keys s d → cache_get key (populated s d time w) = None.
Proof.
  intros Htime. unfold written_keys. rewrite elem_of_app, !elem_of_cons.
  intros Hkey. unfold cache_get.
  assert (store (populated s d time w) !! key = None) as ->; [|done].
  unfold populated. rewrite !cache_set_expired by done.
  destruct Hkey as [Hkey|[->|[->|[->|Hkey]]]]; auto.
  - do 3 right. apply names_foldl_expired; auto.
  - by apply elem_of_nil in Hkey.
Qed.

(** After a population with a time-to-live above 30 days the check does
    not report the slug as cached. *)
Lemma populated_expired_check (s : string) (d : detail) (time : Z) (w : world) :
  (2592000 < time)%Z → check_cache_problem s (populated s d time w) = false.
Proof.
  intros Htime. unfold check_cache_problem.
  rewrite (populated_expired s d time w (tags_key s)); [done|done|].
  unfold written_keys. set_solver.
Qed.

Lemma names_foldl_get (time : Z) (tags : list tag) (w : world) (t : tag) :
  (time ≤ 2592000)%Z →
  NoDup (slug <$> tags) → t ∈ tags →
  cache_get (tag_name_key (slug t))
    (foldl (λ w t, cache_set (tag_name_key (slug t)) (VText (name t)) time w) w tags)
  = Some (VText (name t)).
Proof.
  intros Htime.
  revert w. induction tags as [|t0 tags IH]; intros w Hnd Hin; csimpl in *.
  - by apply elem_of_nil in Hin.
  - apply NoDup_cons in Hnd as [Hfresh Hnd].
    apply elem_of_cons in Hin as [->|Hin]; [|by apply IH].
    unfold cache_get. rewrite names_foldl_other.
    + simpl. rewrite decide_True by done. by rewrite lookup_insert_eq.
    + intros (t' & Hk & Ht')%list_elem_of_fmap. apply tag_name_key_inj in Hk.
      apply Hfresh. rewrite Hk. by apply list_elem_of_fmap_2.
Qed.

Lemma populated_other (s : string) (d : detail) (time : Z) (w : world) (key : string) :
  key ∉ written_keys s d → store (populated s d time w) !! key = store w !! key.
Proof.
  unfold written_keys. rewrite not_elem_of_app, !not_elem_of_cons.
  intros (Hnames & H1 & H2 & H3 & _). unfold populated.
  rewrite !cache_set_other by done. by apply names_foldl_other.
Qed.

Section Population.
Variable upstream : string → result detail.
Variable draws : nat → nat.

Lemma invalidate_cache_populated (req : request) (w : world) (s : string) (d : detail) :
  header_set (queue_name req) = true →
  form_slug req = Some s →
  check_cache_problem s w = false →
  upstream s = Ok d →
  invalidate_cache upstream draws req w
  = (Ok ("OK", 200),
     populated s d (86400 * 30 + randint draws (-86400) 86400 (rng w))
       {| store := store w; log := log w ++ [UpstreamQuery s]; rng := S (rng w) |}).
Proof.
  intros Hh Hs Hc Hu. unfold invalidate_cache. rewrite Hh, Hs. simpl.
  rewrite (check_cache_problem_store s _ w) by done. rewrite Hc.
  unfold get_problem_detail. by rewrite Hu.
Qed.

(** What the keys of a population hold after it, when its time-to-live
    is at most 30 days. *)
Lemma populated_reads (s : string) (d : detail) (time : Z) (w : world) :
  (time ≤ 2592000)%Z →
  cache_get (tags_key s) (populated s d time w) = Some (VTags (slug <$> topic_tags d)) ∧
  cache_get (problem_tags_key s) (populated s d time w)
  = Some (VTags (slug <$> topic_tags d)) ∧
  cache_get (problem_title_key s) (populated s d time w) = Some (VText (title d)) ∧
  (NoDup (slug <$> topic_tags d) →
   ∀ t, t ∈ topic_tags d →
        cache_get (tag_name_key (slug t)) (populated s d time w) = Some (VText (name t))).
Proof.
  intros Htime. unfold populated. split_and!.
  - rewrite !cache_get_set.
    rewrite decide_False by apply title_key_ne_tags_key.
    rewrite decide_False by apply tags_key_ne_problem_tags_key.
    by rewrite !decide_True.
  - rewrite !cache_get_set.
    rewrite decide_False by apply title_key_ne_problem_tags_key.
    by rewrite !decide_True.
  - rewrite cache_get_set. by rewrite !decide_True.
  - intros Hnd t Ht. rewrite !cache_get_set.
    destruct (tag_name_key_ne_problem_key (slug t) s) as [H1 H2].
    rewrite decide_False by done. rewrite decide_False by done.
    rewrite decide_False by apply tag_name_key_ne_tags_key.
    by apply names_foldl_get.
Qed.

(** X12: after a population whose time-to-live is at most 30 days (a
    jitter of at most 0) the cache gives back what the catalog provider
    answered: the tag slugs under both tag-list keys, the title under the
    title key and, when the tags have distinct slugs, the name of each
    tag under its name key; no write of the population overwrites
    another.  After a population whose time-to-live is above 30 days (a
    jitter of 1 or more), which memcache reads as a date of 1970, every
    key that the population wrote reads as absent. *)
Theorem population_round_trip (req : request) (w : world) (s : string) (d : detail) :
  header_set (queue_name req) = true →
  form_slug req = Some s →
  check_cache_problem s w = false →
  upstream s = Ok d →
  ∃ w', invalidate_cache upstream draws req w = (Ok ("OK", 200), w') ∧
    ((randint draws (-86400) 86400 (rng w) ≤ 0)%Z →
     cache_get (tags_key s) w' = Some (VTags (slug <$> topic_tags d)) ∧
     cache_get (problem_tags_key s) w' = Some (VTags (slug <$> topic_tags d)) ∧
     cache_get (problem_title_key s) w' = Some (VText (title d)) ∧
     (NoDup (slug <$> topic_tags d) →
      ∀ t, t ∈ topic_tags d →
           cache_get (tag_name_key (slug t)) w' = Some (VText (name t)))) ∧
    ((0 < randint draws (-86400) 86400 (rng w))%Z →
     ∀ key, key ∈ written_keys s d → cache_get key w' = None).
Proof.
  intros Hh Hs Hc Hu. eexists. split; [by apply invalidate_cache_populated|]. split.
  - intros Hj. apply populated_reads. lia.
  - intros Hj key Hkey. apply populated_expired; [lia|done].
Qed.

(** X13: the engine reads what the worker wrote, as long as the
    time-to-live of the population is at most 30 days (a jitter of at
    most 0): from the cache that the population of a slug leaves,
    [get_tags] returns the tag slugs that the catalog provider gave for
    it, and the title of the slug resolves to the title it gave, or to
    the slug when that title is empty.  After a population with a
    time-to-live above 30 days the engine finds nothing: [get_tags]
    returns the empty list and the title resolves to the slug. *)
Theorem engine_reads_population (req : request) (w : world) (s : string) (d : detail) :
  header_set (queue_name req) = true →
  form_slug req = Some s →
  check_cache_problem s w = false →
  upstream s = Ok d →
  ∃ w', invalidate_cache upstream draws req w = (Ok ("OK", 200), w') ∧
    ((randint draws (-86400) 86400 (rng w) ≤ 0)%Z →
     Default.get_tags (cache_of w') s = Ok (VTags (slug <$> topic_tags d)) ∧
     Default.cached_tags (cache_of w') s = slug <$> topic_tags d ∧
     Default.resolve (cache_of w') (problem_title_key s) s
     = Ok (VText (if decide (title d = "") then s else title d))) ∧
    ((0 < randint draws (-86400) 86400 (rng w))%Z →
     Default.get_tags (cache_of w') s = Ok (VTags []) ∧
     Default.cached_tags (cache_of w') s = [] ∧
     Default.resolve (cache_of w') (problem_title_key s) s = Ok (VText s)).
Proof.
  intros Hh Hs Hc Hu. eexists. split; [by apply invalidate_cache_populated|].
  set (w0 := {| store := store w; log := log w ++ [UpstreamQuery s]; rng := S (rng w) |}).
  set (time := (86400 * 30 + randint draws (-86400) 86400 (rng w))%Z).
  split.
  - intros Hj.
    destruct (populated_reads s d time w0) as (Ht & _ & Hti & _); [unfold time; lia|].
    assert (Default.get_tags (cache_of (populated s d time w0)) s
            = Ok (VTags (slug <$> topic_tags d))) as Hg.
    { unfold Default.get_tags, cache_of. rewrite Ht. simpl.
      by destruct (slug <$> topic_tags d). }
    split_and!; [done| |].
    + unfold Default.cached_tags. by rewrite Hg.
    + unfold Default.resolve, cache_of. rewrite Hti. simpl.
      destruct (title d); [done|]. by rewrite decide_False.
  - intros Hj.
    assert (∀ key, key ∈ written_keys s d → cache_get key (populated s d time w0) = None)
      as Hnone by (intros key Hkey; apply populated_expired; [unfold time; lia|done]).
    assert (Default.get_tags (cache_of (populated s d time w0)) s = Ok (VTags [])) as Hg.
    { unfold Default.get_tags, cache_of. rewrite Hnone; [done|].
      unfold written_keys. set_solver. }
    split_and!; [done| |].
    + unfold Default.cached_tags. by rewrite Hg.
    + unfold Default.resolve, cache_of. rewrite Hnone; [done|].
      unfold written_keys. set_solver.
Qed.

(** X14: a task writes to the cache only when it populates.  When it is
    not accepted, has no slug, finds the slug reported as cached or gets
    no answer from the catalog provider, the store is left as it was,
    and all it does to the outside is at most the one query. *)
Theorem writes_only_when_populating (req : request) (w : world) :
  (∃ s d, header_set (queue_name req) = true ∧ form_slug req = Some s ∧
          check_cache_problem s w = false ∧ upstream s = Ok d) ∨
  (store (invalidate_cache upstream draws req w).2 = store w ∧
   (log (invalidate_cache upstream draws req w).2 = log w ∨
    ∃ s, log (invalidate_cache upstream draws req w).2 = log w ++ [UpstreamQuery s])).
Proof.
  destruct (header_set (queue_name req)) eqn:Hh.
  2:{ right. rewrite invalidate_cache_denied by done. auto. }
  destruct (form_slug req) as [s|] eqn:Hs.
  2:{ right. unfold invalidate_cache. rewrite Hh, Hs. simpl. auto. }
  destruct (check_cache_problem s w) eqn:Hc.
  { right. rewrite (invalidate_cache_cached _ _ req w s) by done. simpl. auto. }
  destruct (upstream s) as [d|e] eqn:Hu.
  { left. by exists s, d. }
  right. unfold invalidate_cache. rewrite Hh, Hs. simpl.
  rewrite (check_cache_problem_store s _ w) by done. rewrite Hc.
  unfold get_problem_detail. rewrite Hu. simpl. eauto.
Qed.

(** X15: a population changes the entries under the keys it writes and
    no other: every other key holds after it what it held before. *)
Theorem population_touches_written_keys (req : request) (w : world) (s : string)
    (d : detail) (key : string) :
  header_set (queue_name req) = true →
  form_slug req = Some s →
  check_cache_problem s w = false →
  upstream s = Ok d →
  key ∉ written_keys s d →
  store (invalidate_cache upstream draws req w).2 !! key = store w !! key.
Proof.
  intros Hh Hs Hc Hu Hkey.
  rewrite (invalidate_cache_populated req w s d Hh Hs Hc Hu). cbn [snd].
  by rewrite populated_other.
Qed.
End Population.

(** ** The scheduler *)

Section Scheduler.
Variable leetcode_client : result ().
Variable catalog : string → result (list string).
Variable taskqueue_add : nat → string → result (string * string).

(** Whatever happens, the slugs in the queue are slugs that the check
    does not report as cached. *)
Lemma schedule_slugs_uncached (w : world) (slugs response queue : list string) :
  Forall (λ s, check_cache_problem s w = false) queue →
  Forall (λ s, check_cache_problem s w = false)
         (schedule_slugs taskqueue_add w slugs response queue).2.
Proof.
  revert response queue. induction slugs as [|s slugs IH]; intros response queue Hq; simpl.
  - done.
  - destruct (check_cache_problem s w) eqn:Hc; [by apply IH|].
    destruct (taskqueue_add (length queue) s) as [task|e]; [|done].
    apply IH. apply Forall_app. split; [done|]. by constructor.
Qed.

Lemma schedule_topics_uncached (w : world) (ts response queue : list string) :
  Forall (λ s, check_cache_problem s w = false) queue →
  Forall (λ s, check_cache_problem s w = false)
         (schedule_topics catalog taskqueue_add w ts response queue).2.
Proof.
  revert response queue. induction ts as [|t ts IH]; intros response queue Hq; simpl.
  - done.
  - destruct (catalog t) as [slugs|e]; [|done].
    pose proof (schedule_slugs_uncached w slugs response queue Hq) as H.
    destruct (schedule_slugs taskqueue_add w slugs response queue) as [[response'|e] queue'];
      [by apply IH|done].
Qed.

(** When no [taskqueue.add] raises, the inner loop adds a task for each
    slug that is not reported as cached, in the order of the listing. *)
Lemma schedule_slugs_filter (w : world) (slugs response queue : list string) :
  (∀ n s, ∃ task, taskqueue_add n s = Ok task) →
  ∃ response',
    schedule_slugs taskqueue_add w slugs response queue
    = (Ok response', queue ++ filter (λ s, check_cache_problem s w = false) slugs).
Proof.
  intros Hadd. revert response queue.
  induction slugs as [|s slugs IH]; intros response queue; simpl.
  - exists response. by rewrite app_nil_r.
  - destruct (check_cache_problem s w) eqn:Hc.
    + rewrite filter_cons_False by (by rewrite Hc). apply IH.
    + rewrite filter_cons_True by done.
      destruct (Hadd (length queue) s) as [task ->].
      destruct (IH (response ++ [ "Task " +:+ task.1 +:+ " for slug " +:+ s
                                  +:+ " enqueued, ETA " +:+ task.2 +:+ "." ])
                   (queue ++ [s])) as [response' ->].
      exists response'. by rewrite <-app_assoc.
Qed.

Lemma schedule_topics_filter (listing : string → list string) (w : world)
    (ts response queue : list string) :
  (∀ n s, ∃ task, taskqueue_add n s = Ok task) →
  (∀ t, t ∈ ts → catalog t = Ok (listing t)) →
  ∃ response',
    schedule_topics catalog taskqueue_add w ts response queue
    = (Ok response',
       queue ++ filter (λ s, check_cache_problem s w = false) (ts ≫= listing)).
Proof.
  intros Hadd. revert response queue.
  induction ts as [|t ts IH]; intros response queue Hcat; csimpl.
  - exists response. by rewrite app_nil_r.
  - rewrite (Hcat t) by left.
    destruct (schedule_slugs_filter w (listing t) response queue Hadd) as [response1 ->].
    destruct (IH response1
                 (queue ++ filter (λ s, check_cache_problem s w = false) (listing t)))
      as [response' ->]; [intros t' Ht'; apply Hcat; by right|].
    exists response'. by rewrite filter_app, app_assoc.
Qed.

Lemma schedule_topics_fails (listing : string → list string) (w : world)
    (before after response queue : list string) (topic : string) (e : exn) :
  (∀ n s, ∃ task, taskqueue_add n s = Ok task) →
  (∀ t, t ∈ before → catalog t = Ok (listing t)) →
  catalog topic = Raise e →
  schedule_topics catalog taskqueue_add w (before ++ topic :: after) response queue
  = (Raise e,
     queue ++ filter (λ s, check_cache_problem s w = false) (before ≫= listing)).
Proof.
  intros Hadd Hcat He. revert response queue Hcat.
  induction before as [|t before IH]; intros response queue Hcat; csimpl.
  - rewrite He. by rewrite app_nil_r.
  - rewrite (Hcat t) by left.
    destruct (schedule_slugs_filter w (listing t) response queue Hadd) as [response1 ->].
    rewrite IH by (intros t' Ht'; apply Hcat; by right).
    by rewrite filter_app, app_assoc.
Qed.

(** X16: a run of the scheduler that is accepted and meets no failure
    adds one task for every listed slug that the check does not report
    as cached, a slug listed twice twice, in the order of the four topics
    and of their listings, and none for any other slug. *)
Theorem schedule_adds_uncached (listing : string → list string) (cron : option string)
    (w : world) :
  header_set cron = true →
  leetcode_client = Ok () →
  (∀ t, t ∈ topics → catalog t = Ok (listing t)) →
  (∀ n s, ∃ task, taskqueue_add n s = Ok task) →
  ∃ page,
    invalidate_cache_schedule leetcode_client catalog taskqueue_add cron w
    = (Ok (page, 200),
       filter (λ s, check_cache_problem s w = false) (topics ≫= listing)).
Proof.
  intros Hh Hcl Hcat Hadd. unfold invalidate_cache_schedule. rewrite Hh, Hcl. cbn [negb].
  destruct (schedule_topics_filter listing w topics [] [] Hadd Hcat) as [response ->].
  by eexists.
Qed.

(** X17: when the listing of a topic fails, the scheduler stops with
    that exception, and the tasks it added for the topics before stay
    added. *)
Theorem schedule_stops_at_failed_topic (listing : string → list string)
    (cron : option string) (w : world) (before after : list string) (topic : string)
    (e : exn) :
  header_set cron = true →
  leetcode_client = Ok () →
  topics = before ++ topic :: after →
  (∀ t, t ∈ before → catalog t = Ok (listing t)) →
  catalog topic = Raise e →
  (∀ n s, ∃ task, taskqueue_add n s = Ok task) →
  invalidate_cache_schedule leetcode_client catalog taskqueue_add cron w
  = (Raise e, filter (λ s, check_cache_problem s w = false) (before ≫= listing)).
Proof.
  intros Hh Hcl Hts Hcat He Hadd. unfold invalidate_cache_schedule.
  rewrite Hh, Hcl, Hts. cbn [negb].
  by rewrite (schedule_topics_fails listing w before after [] [] topic e Hadd Hcat He).
Qed.

(** X18: the scheduler never adds a task for a slug that the check
    reports as cached, however the run ends.  So after a task of the
    worker for a slug has completed, a run of the scheduler on the cache
    it left adds no task for that slug, provided the slug was reported as
    cached before the task or the time-to-live that the task drew is at
    most 30 days (a jitter of at most 0).  When the task populated the
    cache with a time-to-live above 30 days, the check still reports the
    slug as not cached afterwards, so the scheduler does not skip it. *)
Theorem schedule_skips_populated (upstream : string → result detail) (draws : nat → nat)
    (req : request) (w w1 : world) (r : string * nat) (s : string) (cron : option string) :
  invalidate_cache upstream draws req w = (Ok r, w1) →
  header_set (queue_name req) = true →
  form_slug req = Some s →
  Forall (λ s', check_cache_problem s' w1 = false)
         (invalidate_cache_schedule leetcode_client catalog taskqueue_add cron w1).2 ∧
  (check_cache_problem s w = true ∨ (randint draws (-86400) 86400 (rng w) ≤ 0)%Z →
   s ∉ (invalidate_cache_schedule leetcode_client catalog taskqueue_add cron w1).2) ∧
  (check_cache_problem s w = false → (0 < randint draws (-86400) 86400 (rng w))%Z →
   check_cache_problem s w1 = false).
Proof.
  intros H Hh Hs.
  assert (Forall (λ s', check_cache_problem s' w1 = false)
            (invalidate_cache_schedule leetcode_client catalog taskqueue_add cron w1).2)
    as Hall.
  { unfold invalidate_cache_schedule.
    destruct (header_set cron); cbn [negb]; [|constructor].
    destruct leetcode_client as [[]|e] eqn:Hcl; [|constructor].
    pose proof (schedule_topics_uncached w1 topics [] [] (Forall_nil_2 _)) as Ht.
    by destruct (schedule_topics catalog taskqueue_add w1 topics [] [])
      as [[response|e] queue]. }
  split_and!; [done| |].
  - intros Hor.
    assert (check_cache_problem s w1 = true) as Hc1.
    { destruct (check_cache_problem s w) eqn:Hc.
      - rewrite (invalidate_cache_cached upstream draws req w s) in H by done.
        injection H as _ <-. by rewrite (check_cache_problem_store s _ w).
      - destruct Hor as [|Hj]; [done|].
        by apply (completed_task_is_cached upstream draws req w w1 r s). }
    intros Hin. rewrite Forall_forall in Hall. specialize (Hall s Hin). congruence.
  - intros Hc Hj. destruct (upstream s) as [d|e] eqn:Hu.
    + rewrite (invalidate_cache_populated upstream draws req w s d) in H by done.
      injection H as _ <-. apply populated_expired_check. lia.
    + pose proof (invalidate_cache_upstream_fails upstream draws req w s e Hh Hs Hc Hu)
        as Hn.
      rewrite H in Hn. done.
Qed.
End Scheduler.

(** ** These properties on the catalog of one problem *)

Lemma first_run :
  invalidate_cache one_problem (λ _, 7) (task "two-sum") empty_world
  = (Ok ("OK", 200),
     (invalidate_cache one_problem (λ _, 7) (task "two-sum") empty_world).2).
Proof. vm_compute. reflexivity. Defined.

Lemma population_round_trip_witness :
  (∃ w', invalidate_cache one_problem (λ _, 7) (task "two-sum") empty_world
         = (Ok ("OK", 200), w') ∧
         cache_get (tags_key "two-sum") w' = Some (VTags ["array"; "hash-table"]) ∧
         cache_get (problem_title_key "two-sum") w' = Some (VText "Two Sum")) ∧
  (∃ w', invalidate_cache one_problem (λ _, 86401) (task "two-sum") empty_world
         = (Ok ("OK", 200), w') ∧
         cache_get (tags_key "two-sum") w' = None ∧
         cache_get (problem_title_key "two-sum") w' = None).
Proof.
  split.
  - destruct (population_round_trip one_problem (λ _, 7) (task "two-sum") empty_world
                "two-sum" _ eq_refl eq_refl eq_refl eq_refl)
      as (w' & Hw' & Hkept & _).
    exists w'. split; [exact Hw'|].
    assert (randint (λ _ : nat, 7%nat) (-86400) 86400 (rng empty_world) ≤ 0)%Z as Hj
      by (vm_compute; discriminate).
    destruct (Hkept Hj) as (Ht & _ & Hti & _).
    split; [exact Ht|exact Hti].
  - destruct (population_round_trip one_problem (λ _, 86401) (task "two-sum") empty_world
                "two-sum" _ eq_refl eq_refl eq_refl eq_refl)
      as (w' & Hw' & _ & Hexp).
    exists w'. split; [exact Hw'|].
    assert (0 < randint (λ _ : nat, 86401%nat) (-86400) 86400 (rng empty_world))%Z as Hj
      by (vm_compute; reflexivity).
    split; apply (Hexp Hj); vm_compute; set_solver.
Defined.

Lemma engine_reads_population_witness :
  (∃ w', invalidate_cache one_problem (λ _, 7) (task "two-sum") empty_world
         = (Ok ("OK", 200), w') ∧
         Default.cached_tags (cache_of w') "two-sum" = ["array"; "hash-table"]) ∧
  (∃ w', invalidate_cache one_problem (λ _, 86401) (task "two-sum") empty_world
         = (Ok ("OK", 200), w') ∧
         Default.cached_tags (cache_of w') "two-sum" = []).
Proof.
  split.
  - destruct (engine_reads_population one_problem (λ _, 7) (task "two-sum") empty_world
                "two-sum" _ eq_refl eq_refl eq_refl eq_refl)
      as (w' & Hw' & Hkept & _).
    exists w'. split; [exact Hw'|].
    assert (randint (λ _ : nat, 7%nat) (-86400) 86400 (rng empty_world) ≤ 0)%Z as Hj
      by (vm_compute; discriminate).
    exact (proj1 (proj2 (Hkept Hj))).
  - destruct (engine_reads_population one_problem (λ _, 86401) (task "two-sum") empty_world
                "two-sum" _ eq_refl eq_refl eq_refl eq_refl)
      as (w' & Hw' & _ & Hexp).
    exists w'. split; [exact Hw'|].
    assert (0 < randint (λ _ : nat, 86401%nat) (-86400) 86400 (rng empty_world))%Z as Hj
      by (vm_compute; reflexivity).
    exact (proj1 (proj2 (Hexp Hj))).
Defined.

Lemma population_touches_written_keys_witness :
  ("3sum_tags" ∉ written_keys "two-sum"
     {| title := "Two Sum";
        topic_tags := [ {| name := "Array"; slug := "array" |};
                        {| name := "Hash Table"; slug := "hash-table" |} ] |}) ∧
  store (invalidate_cache one_problem (λ _, 7) (task "two-sum") other_world).2
    !! "3sum_tags"
  = store other_world !! "3sum_tags".
Proof.
  assert ("3sum_tags" ∉ written_keys "two-sum"
            {| title := "Two Sum";
               topic_tags := [ {| name := "Array"; slug := "array" |};
                               {| name := "Hash Table"; slug := "hash-table" |} ] |}) as H.
  { vm_compute. intros Hin. repeat (inversion Hin as [|? ? ? Hin']; subst; clear Hin;
                                     rename Hin' into Hin). }
  split; [exact H|].
  exact (population_touches_written_keys one_problem (λ _, 7) (task "two-sum") other_world
           "two-sum" _ "3sum_tags" eq_refl eq_refl eq_refl eq_refl H).
Defined.

Lemma schedule_adds_uncached_witness :
  (∀ t, t ∈ topics → small_catalog t = Ok (if decide (t = "algorithms")
                                            then ["two-sum"; "3sum"] else [])) ∧
  ∃ page,
    invalidate_cache_schedule (Ok ()) small_catalog plain_queue (Some "true") stale_world
    = (Ok (page, 200), ["3sum"]).
Proof.
  assert (∀ t, t ∈ topics → small_catalog t = Ok (if decide (t = "algorithms")
                                                   then ["two-sum"; "3sum"] else [])) as H.
  { intros t _. unfold small_catalog. by destruct (decide (t = "algorithms")). }
  split; [exact H|].
  refine (schedule_adds_uncached (Ok ()) small_catalog plain_queue
            (λ t, if decide (t = "algorithms") then ["two-sum"; "3sum"] else [])
            (Some "true") stale_world eq_refl eq_refl H _).
  intros n s. eexists. reflexivity.
Defined.

Lemma schedule_stops_at_failed_topic_witness :
  topics = ["algorithms"] ++ "shell" :: ["databases"; "concurrency"] ∧
  broken_catalog "shell" = Raise UpstreamError ∧
  invalidate_cache_schedule (Ok ()) broken_catalog plain_queue (Some "true") stale_world
  = (Raise UpstreamError, ["3sum"]).
Proof.
  split; [reflexivity|]. split; [reflexivity|].
  refine (schedule_stops_at_failed_topic (Ok ()) broken_catalog plain_queue
            (λ _, ["two-sum"; "3sum"]) (Some "true") stale_world
            ["algorithms"] ["databases"; "concurrency"] "shell" UpstreamError
            eq_refl eq_refl eq_refl _ eq_refl _).
  - intros t Ht. inversion Ht as [|? ? ? Hn]; subst; [reflexivity|inversion Hn].
  - intros n s. eexists. reflexivity.
Defined.

Lemma schedule_skips_populated_witness :
  invalidate_cache one_problem (λ _, 7) (task "two-sum") empty_world
  = (Ok ("OK", 200),
     (invalidate_cache one_problem (λ _, 7) (task "two-sum") empty_world).2) ∧
  "two-sum" ∉ (invalidate_cache_schedule (Ok ()) small_catalog plain_queue (Some "true")
                 (invalidate_cache one_problem (λ _, 7) (task "two-sum") empty_world).2).2.
Proof.
  split; [exact first_run|].
  assert (randint (λ _ : nat, 7%nat) (-86400) 86400 (rng empty_world) ≤ 0)%Z as Hj
    by (vm_compute; discriminate).
  exact (proj1 (proj2 (schedule_skips_populated (Ok ()) small_catalog plain_queue
                         one_problem (λ _, 7) (task "two-sum") empty_world _ ("OK", 200)
                         "two-sum" (Some "true") first_run eq_refl eq_refl))
           (or_intror Hj)).
Defined.

End WorkerMore.
